(** * Cross-matching of photometric catalogs: [join_catalogs]

    Shallow embedding of the notebook function [join_catalogs]
    (standard photometry notebook, cell defining [join_catalogs]) and of
    the cell that calls it and tidies the column names.

    - A catalog is an astropy [Table]: a list of column names and a list
      of rows, each row the list of its values in column order.
    - The index table built by [match_to_catalog_sky] has the two columns
      ['index'] (a right-table row number) and ['distance'] (an angle in
      degrees); it is modelled as a list of pairs.
    - Angles (floats in the source) are modelled by rationals: all the
      code does with them is compare them, and finite non-negative
      doubles compare as the rationals they denote; the cutoff is the
      float64 the code computes.
    - Float arithmetic on table cells (the colour column) rounds to
      float64 ([f64_round]).
    - Python exceptions are the constructors of [py_error]. *)

From Stdlib Require Import String Ascii List Bool Arith Lia ZArith QArith.
From Stdlib Require Import Sorting.Sorted Sorting.Permutation.
Import ListNotations.
Open Scope nat_scope.
Open Scope string_scope.

(** ** Errors and a small error monad *)

Inductive py_error :=
  | IndexError        (* numpy fancy / boolean indexing out of range *)
  | KeyError          (* missing column, or rename onto an existing one *)
  | TableMergeError   (* hstack would produce duplicate column names *)
  | ValueError        (* operands that cannot be broadcast; sort keys
                         that are not columns of the table *)
  | TypeError         (* an object of the wrong kind where a table is read *)
  | MaskedPadding.    (* not an exception: [hstack] padded a shorter,
                         non-empty input with masked rows, and what the
                         code then does with the masked cells is left
                         outside this model *)

Inductive result (A : Type) : Type :=
  | Ok (a : A)
  | Err (e : py_error).
Arguments Ok {A} a.
Arguments Err {A} e.

Definition bind {A B} (m : result A) (k : A -> result B) : result B :=
  match m with Ok a => k a | Err e => Err e end.

Notation "x <- m ;; k" := (bind m (fun x => k))
  (at level 61, m at next level, right associativity).

(** ** Data model *)

Inductive value :=
  | VInt (z : Z)
  | VNum (q : Q)          (* a finite float *)
  | VNonFinite           (* a float [inf], [-inf] or [nan] *)
  | VStr (s : string).

Record table := mkTable { colnames : list string; rows : list (list value) }.

(** Rows of the index table: columns ['index'] and ['distance']. *)
Definition index_table := list (nat * Q).

(** A row of [matched]: the index-table part, the left row and the
    right row [right_table[index]] side by side. *)
Record mrow := mkMrow {
  m_index : nat;
  m_distance : Q;
  m_left : list value;
  m_right : list value }.

(** ** Helpers mirroring Python / numpy / astropy primitives *)

Fixpoint mem (n : string) (l : list string) : bool :=
  match l with [] => false | x :: l' => String.eqb n x || mem n l' end.

Fixpoint has_dup (l : list string) : bool :=
  match l with [] => false | x :: l' => mem x l' || has_dup l' end.

Fixpoint zipWith {A B C} (f : A -> B -> C) (a : list A) (b : list B) : list C :=
  match a, b with
  | x :: a', y :: b' => f x y :: zipWith f a' b'
  | _, _ => []
  end.

(** Python's [<] on floats. *)
Definition Qltb (x y : Q) : bool := negb (Qle_bool y x).

(** [right_table[index_table['index']]]: numpy fancy indexing, which
    raises [IndexError] for a row number out of range. *)
Fixpoint take_rows (rs : list (list value)) (ix : list nat)
  : result (list (list value)) :=
  match ix with
  | [] => Ok []
  | i :: ix' =>
      match nth_error rs i with
      | None => Err IndexError
      | Some r => rs' <- take_rows rs ix';; Ok (r :: rs')
      end
  end.

(** astropy's [hstack] column naming with the default
    [uniq_col_name='{col_name}_{table_name}'] and table names
    ['1'], ['2'], ['3']: a name found in another input table gets the
    suffix of its own table. *)
Definition uniq_col_name (others : list (list string)) (tname n : string) : string :=
  if existsb (mem n) others then n ++ "_" ++ tname else n.

Definition hstack_names3 (a b c : list string) : list string :=
  map (uniq_col_name [b; c] "1") a ++
  map (uniq_col_name [a; c] "2") b ++
  map (uniq_col_name [a; b] "3") c.

(** The rows of [hstack([index_table, left_table, right_rows])] when the
    three tables have the same number of rows, as in the notebook's calls
    ([match_to_catalog_sky] yields one index row per left row). *)
Fixpoint hstack_rows (ix : index_table) (ls rs : list (list value)) : list mrow :=
  match ix, ls, rs with
  | (i, d) :: ix', l :: ls', r :: rs' => mkMrow i d l r :: hstack_rows ix' ls' rs'
  | _, _, _ => []
  end.

(** What [hstack] (default [join_type='outer']) does with the lengths of
    its inputs: with equal lengths the rows are put side by side; a
    shorter input is padded up to the longest one by indexing its columns
    at row 0, which raises [IndexError] for an input without rows, and
    with masked values otherwise. *)
Definition hstack_lengths (lens : list nat) : result unit :=
  let n := fold_right Nat.max 0 lens in
  if forallb (Nat.eqb n) lens then Ok tt
  else if existsb (Nat.eqb 0) lens then Err IndexError
  else Err MaskedPadding.

(** numpy's [list * ndarray] on booleans: element-wise [and], with
    broadcasting of a length-1 operand. *)
Definition np_mul (a b : list bool) : result (list bool) :=
  if Nat.eqb (List.length a) (List.length b) then Ok (zipWith andb a b)
  else if Nat.eqb (List.length a) 1 then Ok (map (andb (hd false a)) b)
  else if Nat.eqb (List.length b) 1 then Ok (map (fun x => andb x (hd false b)) a)
  else Err ValueError.

(** [table[mask]] with a boolean mask. *)
Definition bool_index {A} (l : list A) (m : list bool) : result (list A) :=
  if Nat.eqb (List.length m) (List.length l) then Ok (map fst (filter snd (combine l m)))
  else Err IndexError.

(** ** [join_catalogs] *)

(** Order used by [matched.sort(['index', 'distance'])]. *)
Definition key_le (a b : mrow) : Prop :=
  (m_index a < m_index b)%nat \/
  (m_index a = m_index b /\ Qle (m_distance a) (m_distance b)).

(** numpy's multi-key argsort is not stable: the sort is a parameter,
    known only to return a permutation sorted by the key. *)
Definition sorts_by_key (srt : list mrow -> list mrow) : Prop :=
  forall l, Permutation l (srt l) /\ Sorted key_le (srt l).

(** [coord.Angle('3 arcsec').degree]: the float64 [3.0 * (1 / 3600)],
    that is [7686143364045646 * 2^-63], just below [3 / 3600]. *)
Definition three_arcsec : Q := 7686143364045646 # 9223372036854775808.

Section Join.

Variable srt : list mrow -> list mrow.

(** [matched = table.hstack([index_table, left_table,
                             right_table[index_table['index']]])] *)
Definition join_matched (ix : index_table) (left right : table)
  : result (list string * list mrow) :=
  rr <- take_rows (rows right) (map fst ix);;
  let names := hstack_names3 ["index"; "distance"] (colnames left) (colnames right) in
  if has_dup names then Err TableMergeError
  else
    u <- hstack_lengths [List.length ix; List.length (rows left); List.length rr];;
    Ok (names, hstack_rows ix (rows left) rr).

(** [matched.sort(['index', 'distance'])]; astropy's [get_index] raises
    [ValueError] when the keys are not all columns of [matched]. *)
Definition join_sorted (ix : index_table) (left right : table)
  : result (list string * list mrow) :=
  m <- join_matched ix left right;;
  let (names, ms) := m in
  if mem "index" names && mem "distance" names then Ok (names, srt ms)
  else Err ValueError.

Definition good_match (index : list nat) : list bool :=
  true :: zipWith (fun star oldstar => negb (Nat.eqb star oldstar)) index (tl index).

Definition nearby (cut : Q) (ms : list mrow) : list bool :=
  map (fun r => Qltb (m_distance r) cut) ms.

(** [result = matched[good_match * nearby]], the cutoff being [cut]. *)
Definition join_masked (cut : Q) (ix : index_table) (left right : table)
  : result (list string * list mrow) :=
  m <- join_sorted ix left right;;
  let (names, ms) := m in
  mask <- np_mul (good_match (map m_index ms)) (nearby cut ms);;
  sel <- bool_index ms mask;;
  Ok (names, sel).

(** [del result['index', 'distance']; return result] *)
Definition join_catalogs_upto (cut : Q) (ix : index_table) (left right : table)
  : result table :=
  m <- join_masked cut ix left right;;
  let (names, sel) := m in
  Ok (mkTable (filter (fun n => negb (String.eqb n "index" || String.eqb n "distance")) names)
              (map (fun r => app (m_left r) (m_right r)) sel)).

Definition join_catalogs (ix : index_table) (left right : table) : result table :=
  join_catalogs_upto three_arcsec ix left right.

End Join.

(** A concrete sort meeting [sorts_by_key]: insertion sort. *)
Definition key_leb (a b : mrow) : bool :=
  Nat.ltb (m_index a) (m_index b) ||
  (Nat.eqb (m_index a) (m_index b) && Qle_bool (m_distance a) (m_distance b)).

Fixpoint insert_row (x : mrow) (l : list mrow) : list mrow :=
  match l with
  | [] => [x]
  | y :: l' => if key_leb x y then x :: l else y :: insert_row x l'
  end.

Fixpoint isort (l : list mrow) : list mrow :=
  match l with [] => [] | x :: l' => insert_row x (isort l') end.

(** ** The calling cell: tidy up the resulting column names *)

(** [s.replace('_' + c, '_' + nw)]: Python's left-to-right replacement of
    the two-character pattern ['_' c]. *)
Fixpoint replace_us (c nw : ascii) (s : string) : string :=
  match s with
  | EmptyString => EmptyString
  | String x s' =>
      match s' with
      | String c' rest =>
          if Ascii.eqb x "_"%char && Ascii.eqb c' c
          then String "_"%char (String nw (replace_us c nw rest))
          else String x (replace_us c nw s')
      | EmptyString => String x EmptyString
      end
  end.

(** [col.replace('_2', '_b').replace('_3', '_y')] *)
Definition tidy_name (col : string) : string :=
  replace_us "3"%char "y"%char (replace_us "2"%char "b"%char col).

(** astropy's [Table.rename_column(name, new_name)]. *)
Definition rename_column (names : list string) (name new_name : string)
  : result (list string) :=
  if negb (mem name names) then Err KeyError
  else if String.eqb name new_name then Ok names
  else if mem new_name names then Err KeyError
  else Ok (map (fun n => if String.eqb n name then new_name else n) names).

(** [for col in phot_ins.colnames: phot_ins.rename_column(col, new_name)]
    ([colnames] is a list taken once, before the loop). *)
Fixpoint rename_all (todo names : list string) : result (list string) :=
  match todo with
  | [] => Ok names
  | col :: todo' =>
      names' <- rename_column names col (tidy_name col);;
      rename_all todo' names'
  end.

(** [phot_ins = join_catalogs(pos_by, b_catalog, y_catalog)] followed by
    the renaming loop. *)
Definition join_and_tidy (srt : list mrow -> list mrow) (ix : index_table)
    (left right : table) : result table :=
  t <- join_catalogs srt ix left right;;
  names <- rename_all (colnames t) (colnames t);;
  Ok (mkTable names (rows t)).

(** ** [join_catalogs] over a store of Python objects

    The function reads its three arguments from the heap, allocates the
    fancy-indexed right table, [matched] and [result], sorts [matched]
    in place and deletes two columns of [result] in place. *)

Inductive obj :=
  | OIndex (t : index_table)
  | OTable (t : table)
  | OMatched (names : list string) (ms : list mrow).

Definition store := list obj.

Definition St (A : Type) := store -> result (A * store).

Definition st_ret {A} (a : A) : St A := fun s => Ok (a, s).
Definition st_bind {A B} (m : St A) (k : A -> St B) : St B :=
  fun s => match m s with Ok (a, s') => k a s' | Err e => Err e end.
Definition st_lift {A} (r : result A) : St A :=
  fun s => match r with Ok a => Ok (a, s) | Err e => Err e end.

Notation "x <-- m ;;; k" := (st_bind m (fun x => k))
  (at level 61, m at next level, right associativity).

Definition st_alloc (o : obj) : St nat := fun s => Ok (List.length s, app s [o]).

Fixpoint upd (s : store) (n : nat) (o : obj) : store :=
  match s, n with
  | [], _ => []
  | _ :: s', O => o :: s'
  | x :: s', S n' => x :: upd s' n' o
  end.

Definition st_put (n : nat) (o : obj) : St unit :=
  fun s => if Nat.ltb n (List.length s) then Ok (tt, upd s n o) else Err IndexError.

Definition st_get_index (n : nat) : St index_table :=
  fun s => match nth_error s n with Some (OIndex t) => Ok (t, s) | _ => Err TypeError end.
Definition st_get_table (n : nat) : St table :=
  fun s => match nth_error s n with Some (OTable t) => Ok (t, s) | _ => Err TypeError end.
Definition st_get_matched (n : nat) : St (list string * list mrow) :=
  fun s => match nth_error s n with
           | Some (OMatched names ms) => Ok ((names, ms), s)
           | _ => Err TypeError end.

Definition join_catalogs_st (srt : list mrow -> list mrow) (cut : Q)
    (i_ix i_left i_right : nat) : St nat :=
  ix <-- st_get_index i_ix;;;
  left <-- st_get_table i_left;;;
  right <-- st_get_table i_right;;;
  rr <-- st_lift (take_rows (rows right) (map fst ix));;;
  i_rr <-- st_alloc (OTable (mkTable (colnames right) rr));;;
  rt <-- st_get_table i_rr;;;
  let names := hstack_names3 ["index"; "distance"] (colnames left) (colnames rt) in
  _ <-- st_lift (if has_dup names then Err TableMergeError else Ok tt);;;
  _ <-- st_lift (hstack_lengths [List.length ix; List.length (rows left); List.length (rows rt)]);;;
  i_m <-- st_alloc (OMatched names (hstack_rows ix (rows left) (rows rt)));;;
  m <-- st_get_matched i_m;;;
  _ <-- st_lift (if mem "index" (fst m) && mem "distance" (fst m) then Ok tt
                 else Err ValueError);;;
  _ <-- st_put i_m (OMatched (fst m) (srt (snd m)));;;
  m' <-- st_get_matched i_m;;;
  mask <-- st_lift (np_mul (good_match (map m_index (snd m'))) (nearby cut (snd m')));;;
  sel <-- st_lift (bool_index (snd m') mask);;;
  i_res <-- st_alloc (OMatched (fst m') sel);;;
  r <-- st_get_matched i_res;;;
  _ <-- st_put i_res (OTable (mkTable
          (filter (fun n => negb (String.eqb n "index" || String.eqb n "distance")) (fst r))
          (map (fun x => app (m_left x) (m_right x)) (snd r))));;;
  st_ret i_res.

(** ** Analysis functions *)

(** Rows of [matched] at which the [good_match] mask is [True]. *)
Definition kept_by_good_match (ms : list mrow) : list mrow :=
  map fst (filter snd (combine ms (good_match (map m_index ms)))).

Definition prev_is (o : option nat) (i : nat) : bool :=
  match o with Some p => Nat.eqb p i | None => false end.

(** First row of each run of equal ['index'] values, [o] being the
    ['index'] of the row before [l]. *)
Fixpoint firsts (o : option nat) (l : list mrow) : list mrow :=
  match l with
  | [] => []
  | r :: t =>
      if prev_is o (m_index r) then firsts (Some (m_index r)) t
      else r :: firsts (Some (m_index r)) t
  end.

Definition hd_list {A} (l : list A) : list A :=
  match l with [] => [] | x :: _ => [x] end.

(** ** The other cells of the notebook *)

(** The position of a column name in [Table.colnames]. *)
Fixpoint col_pos (n : string) (l : list string) : option nat :=
  match l with
  | [] => None
  | x :: l' => if String.eqb n x then Some 0 else option_map S (col_pos n l')
  end.

(** An astropy table holds one value per column in every row. *)
Definition wf_table (t : table) : Prop :=
  Forall (fun r => List.length r = List.length (colnames t)) (rows t).

(** [t[name]]: the column's values, [KeyError] for a missing column (the
    default of [nth] is never reached on a well-formed table). *)
Definition get_column (t : table) (name : string) : result (list value) :=
  match col_pos name (colnames t) with
  | None => Err KeyError
  | Some i => Ok (map (fun r => nth i r (VInt 0)) (rows t))
  end.

(** numpy's element-wise [column == s] against a string: a non-string
    element compares unequal. *)
Definition eq_str (col : list value) (s : string) : list bool :=
  map (fun v => match v with VStr x => String.eqb x s | _ => false end) col.

(** [t[t[name] == s]] (the selections [read_catalog['valid'] == 'True']
    and [catalog['Filename'] == b_image]). *)
Definition select_eq (t : table) (name s : string) : result table :=
  col <- get_column t name;;
  rs <- bool_index (rows t) (eq_str col s);;
  Ok (mkTable (colnames t) rs).

Definition b_image : string := "../resources/red_data/bfa_m67_b_1.fit".
Definition y_image : string := "../resources/red_data/bfa_m67_y_1.fit".

(** [catalog = read_catalog[read_catalog['valid'] == 'True']] and the two
    band catalogs [b_catalog], [y_catalog]. *)
Definition select_bands (read_catalog : table) : result (table * table) :=
  catalog <- select_eq read_catalog "valid" "True";;
  b_catalog <- select_eq catalog "Filename" b_image;;
  y_catalog <- select_eq catalog "Filename" y_image;;
  Ok (b_catalog, y_catalog).

(** *** The index table: [b_pos.match_to_catalog_sky(y_pos)]

    Positions are of an abstract type with an angular separation [sep].
    astropy's contract for the first two outputs (the ['index'] and
    ['distance'] columns kept after [del pos_by['3d']]): one row per left
    position, holding the row number of a nearest right position and the
    separation to it. *)
Section Matching.

Variable coordT : Type.
Variable sep : coordT -> coordT -> Q.

Definition nearest_table (lpos rpos : list coordT) (ix : index_table) : Prop :=
  Forall2 (fun l p => exists r, nth_error rpos (fst p) = Some r /\
             snd p = sep l r /\ Forall (fun r' => Qle (snd p) (sep l r')) rpos)
    lpos ix.

(** An executable matcher meeting the contract (the first nearest
    position on ties); astropy raises [ValueError] for an empty catalog. *)
Fixpoint argmin_from (d : coordT -> Q) (rs : list coordT) (i : nat) (best : nat * Q)
  : nat * Q :=
  match rs with
  | [] => best
  | r :: rs' =>
      argmin_from d rs' (S i) (if Qltb (d r) (snd best) then (i, d r) else best)
  end.

Definition match_to_catalog_sky (lpos rpos : list coordT) : result index_table :=
  match rpos with
  | [] => Err ValueError
  | r0 :: rs => Ok (map (fun l => argmin_from (sep l) rs 1 (0%nat, sep l r0)) lpos)
  end.

End Matching.

(** *** The colour column: [phot_ins['mag_b-y'] = phot_ins['mag_b'] - phot_ins['mag_y']] *)

(** int64 wrap-around. *)
Definition wrap64 (z : Z) : Z := ((z + 2 ^ 63) mod 2 ^ 64 - 2 ^ 63)%Z.

(** IEEE 754 binary64 rounding, to nearest with ties to even. *)

(** [n / d] rounded to the nearest integer, ties to even ([0 < d]). *)
Definition round_half_even (n d : Z) : Z :=
  let q := (n / d)%Z in
  let r := (n mod d)%Z in
  if (2 * r <? d)%Z then q
  else if (d <? 2 * r)%Z then (q + 1)%Z
  else if Z.even q then q else (q + 1)%Z.

(** [2 ^ (52 + e) <= a / d], for [0 < d]. *)
Definition scaled_ge (a d e : Z) : bool :=
  if (0 <=? 52 + e)%Z then (2 ^ (52 + e) * d <=? a)%Z
  else (d <=? a * 2 ^ (- (52 + e)))%Z.

(** The float64 nearest to [x]: [m * 2 ^ e] with [|m| <= 2 ^ 53] and
    [-1074 <= e], normalised ([2 ^ 52 <= |x| / 2 ^ e < 2 ^ 53]) above the
    subnormal range; [None] when it overflows to an infinity. *)
Definition f64_round (x : Q) : option Q :=
  let n := Qnum x in
  let d := Zpos (Qden x) in
  if (n =? 0)%Z then Some 0%Q
  else
    let a := Z.abs n in
    let e1 := (Z.log2 a - Z.log2 d - 52)%Z in
    let e := Z.max (-1074) (if scaled_ge a d e1 then e1 else e1 - 1)%Z in
    let m := if (e <=? 0)%Z then round_half_even (a * 2 ^ (- e)) d
             else round_half_even a (d * 2 ^ e) in
    let sm := if (n <? 0)%Z then (- m)%Z else m in
    if (0 <=? e)%Z then
      if (2 ^ 1024 <=? m * 2 ^ e)%Z then None else Some (inject_Z (sm * 2 ^ e))
    else Some (Qred (sm # Z.to_pos (2 ^ (- e)))).

(** A number as a float64 operand: an int64 is converted by rounding;
    [None] stands for a non-finite float. *)
Definition f64_of (v : value) : option Q :=
  match v with
  | VInt z => f64_round (inject_Z z)
  | VNum q => Some q
  | _ => None
  end.

(** numpy's scalar subtraction: int64 - int64 wraps, with a float operand
    both are taken as float64 and the difference is rounded (a
    non-finite operand or an overflow gives a non-finite float), a string
    operand raises [TypeError]. *)
Definition np_sub (a b : value) : result value :=
  match a, b with
  | VStr _, _ => Err TypeError
  | _, VStr _ => Err TypeError
  | VInt x, VInt y => Ok (VInt (wrap64 (x - y)))
  | _, _ =>
      Ok (match f64_of a, f64_of b with
          | Some x, Some y =>
              match f64_round (x - y) with Some q => VNum q | None => VNonFinite end
          | _, _ => VNonFinite
          end)
  end.

(** Column minus column; operands of different lengths cannot be broadcast. *)
Fixpoint sub_columns (a b : list value) : result (list value) :=
  match a, b with
  | [], [] => Ok []
  | x :: a', y :: b' => d <- np_sub x y;; r <- sub_columns a' b';; Ok (d :: r)
  | _, _ => Err ValueError
  end.

Fixpoint set_nth {A} (l : list A) (i : nat) (x : A) : list A :=
  match l, i with
  | [], _ => []
  | _ :: l', O => x :: l'
  | y :: l', S i' => y :: set_nth l' i' x
  end.

(** [t[name] = col]: an existing column is replaced, a new one appended;
    a column of the wrong length raises [ValueError]. *)
Definition set_column (t : table) (name : string) (col : list value) : result table :=
  if negb (Nat.eqb (List.length col) (List.length (rows t))) then Err ValueError
  else match col_pos name (colnames t) with
       | Some i => Ok (mkTable (colnames t) (zipWith (fun r v => set_nth r i v) (rows t) col))
       | None => Ok (mkTable (app (colnames t) [name]) (zipWith (fun r v => app r [v]) (rows t) col))
       end.

Definition add_color (t : table) : result table :=
  b <- get_column t "mag_b";;
  y <- get_column t "mag_y";;
  d <- sub_columns b y;;
  set_column t "mag_b-y" d.

Definition is_number (v : value) : Prop :=
  match v with VStr _ => False | _ => True end.

(** *** Analysis functions for the other cells *)

(** Row [r] holds the string [s] in column [i]. *)
Definition cell_is (i : nat) (s : string) (r : list value) : bool :=
  match nth_error r i with Some (VStr x) => String.eqb x s | _ => false end.

(** [s] contains the two characters ['_' c]. *)
Fixpoint has_pat (c : ascii) (s : string) : bool :=
  match s with
  | String x s' =>
      match s' with
      | String y _ => (Ascii.eqb x "_"%char && Ascii.eqb y c) || has_pat c s'
      | EmptyString => false
      end
  | EmptyString => false
  end.

(** Sample inputs for the other cells. *)
Definition ex_read_catalog : table :=
  mkTable ["Filename"; "valid"; "mag"]
    [[VStr b_image; VStr "True"; VNum 10]; [VStr y_image; VStr "True"; VNum 11];
     [VStr b_image; VStr "False"; VNum 12]].

(** Positions on a line, separated by their distance. *)
Definition ex_sep (a b : Q) : Q := if Qle_bool a b then b - a else a - b.

(** ** Sample inputs *)

(** Two left stars nearest to right star 0 (the first one closer), one
    left star nearest to right star 1 but farther than 3 arcsec. *)
Definition ex_ix : index_table := [(0%nat, 1 # 7200); (0%nat, 1 # 3600); (1%nat, 1 # 100)].
Definition ex_left : table :=
  mkTable ["id"; "mag"] [[VInt 1; VNum 10]; [VInt 2; VNum 11]; [VInt 3; VNum 12]].
Definition ex_right : table := mkTable ["mag"] [[VNum 20]; [VNum 21]].
Definition ex_rr : list (list value) := [[VNum 20]; [VNum 20]; [VNum 21]].
Definition ex_names : list string := ["index"; "distance"; "id"; "mag_2"; "mag_3"].
(** Right star 1 nearest to two left stars, both beyond the cutoff. *)
Definition ex_ix10 : index_table := [(0%nat, 1 # 7200); (1%nat, 1 # 100); (1%nat, 1 # 50)].
Definition ex_rr10 : list (list value) := [[VNum 20]; [VNum 21]; [VNum 21]].
Definition ex_a : mrow := mkMrow 0 (1 # 7200) [VInt 1; VNum 10] [VNum 20].
Definition ex_b : mrow := mkMrow 0 (1 # 3600) [VInt 2; VNum 11] [VNum 20].

(** ** Evaluation on small inputs *)

Example join_ex1 :
  join_catalogs isort [(0%nat, 1 # 7200); (0%nat, 1 # 3600); (1%nat, 1 # 100)]
    (mkTable ["id"; "mag"] [[VInt 1; VNum 10]; [VInt 2; VNum 11]; [VInt 3; VNum 12]])
    (mkTable ["mag"] [[VNum 20]; [VNum 21]])
  = Ok (mkTable ["id"; "mag_2"; "mag_3"] [[VInt 1; VNum 10; VNum 20]]).
Proof. vm_compute. reflexivity. Qed.

(** The cutoff is the float64 product [3.0 * (1 / 3600)], a float64
    below [3 / 3600]. *)
Example three_arcsec_f64 :
  f64_round (3 * match f64_round (1 # 3600) with Some q => q | None => 0 end)
    = Some (Qred three_arcsec) /\
  f64_round three_arcsec = Some (Qred three_arcsec) /\
  Qlt three_arcsec (3 # 3600).
Proof. vm_compute. split; [reflexivity | split; [reflexivity | reflexivity]]. Qed.

Example tidy_ex : tidy_name "mag_2" = "mag_b" /\ tidy_name "mag_3" = "mag_y"
  /\ tidy_name "x__2_3" = "x__b_y" /\ tidy_name "flux_20" = "flux_b0".
Proof. vm_compute. repeat split. Qed.

Example join_and_tidy_ex :
  join_and_tidy isort [(1%nat, 1 # 7200)]
    (mkTable ["id"; "mag"] [[VInt 1; VNum 10]])
    (mkTable ["mag"] [[VNum 20]; [VNum 21]])
  = Ok (mkTable ["id"; "mag_b"; "mag_y"] [[VInt 1; VNum 10; VNum 21]]).
Proof. vm_compute. reflexivity. Qed.

Example join_st_ex :
  join_catalogs_st isort three_arcsec 0 1 2
    [OIndex [(0%nat, 1 # 7200)]; OTable (mkTable ["mag"] [[VNum 10]]);
     OTable (mkTable ["mag"] [[VNum 20]])]
  = Ok (5%nat,
        [OIndex [(0%nat, 1 # 7200)]; OTable (mkTable ["mag"] [[VNum 10]]);
         OTable (mkTable ["mag"] [[VNum 20]]);
         OTable (mkTable ["mag"] [[VNum 20]]);
         OMatched ["index"; "distance"; "mag_2"; "mag_3"] [mkMrow 0 (1 # 7200) [VNum 10] [VNum 20]];
         OTable (mkTable ["mag_2"; "mag_3"] [[VNum 10; VNum 20]])]).
Proof. vm_compute. reflexivity. Qed.

(** * Lemmas *)

(** ** The insertion sort meets [sorts_by_key] *)

Lemma key_leb_true a b : key_leb a b = true -> key_le a b.
Proof.
  unfold key_leb, key_le. intros H.
  apply orb_true_iff in H as [H | H].
  - left. apply Nat.ltb_lt. exact H.
  - apply andb_true_iff in H as [H1 H2]. right.
    split; [apply Nat.eqb_eq; exact H1 | apply Qle_bool_iff; exact H2].
Qed.

Lemma key_leb_false a b : key_leb a b = false -> key_le b a.
Proof.
  unfold key_leb, key_le. intros H.
  apply orb_false_iff in H as [H1 H2].
  apply Nat.ltb_ge in H1.
  destruct (Nat.eq_dec (m_index a) (m_index b)) as [E | E].
  - right. split; [congruence|].
    rewrite E, Nat.eqb_refl in H2. simpl in H2.
    apply Qlt_le_weak, Qnot_le_lt. intros Hle.
    apply Qle_bool_iff in Hle. congruence.
  - left. lia.
Qed.

Lemma key_le_trans : Transitive key_le.
Proof.
  intros a b c [H1 | [H1 H2]] [H3 | [H3 H4]]; unfold key_le.
  - left. lia.
  - left. lia.
  - left. lia.
  - right. split; [congruence | eapply Qle_trans; eauto].
Qed.

Lemma insert_row_perm x l : Permutation (x :: l) (insert_row x l).
Proof.
  induction l as [|y l IH]; simpl; [reflexivity|].
  destruct (key_leb x y); [reflexivity|].
  transitivity (y :: x :: l); [apply perm_swap | apply perm_skip, IH].
Qed.

Lemma insert_row_hdrel x y l :
  key_le y x -> HdRel key_le y l -> HdRel key_le y (insert_row x l).
Proof.
  intros Hyx Hl. destruct l as [|z l]; simpl.
  - constructor. exact Hyx.
  - destruct (key_leb x z); constructor; [exact Hyx|].
    inversion Hl; assumption.
Qed.

Lemma insert_row_sorted x l : Sorted key_le l -> Sorted key_le (insert_row x l).
Proof.
  induction l as [|y l IH]; simpl; intros Hs.
  - repeat constructor.
  - destruct (key_leb x y) eqn:E.
    + constructor; [exact Hs | constructor; apply key_leb_true; exact E].
    + apply Sorted_inv in Hs as [Hs Hh].
      constructor; [apply IH, Hs|].
      apply insert_row_hdrel; [apply key_leb_false; exact E | exact Hh].
Qed.

Lemma isort_sorts : sorts_by_key isort.
Proof.
  intros l. induction l as [|x l [IHp IHs]]; simpl.
  - split; constructor.
  - split.
    + transitivity (x :: isort l); [apply perm_skip, IHp | apply insert_row_perm].
    + apply insert_row_sorted, IHs.
Qed.

(** ** List and mask lemmas *)

Lemma zipWith_length {A B C} (f : A -> B -> C) a b :
  List.length (zipWith f a b) = Nat.min (List.length a) (List.length b).
Proof.
  revert b; induction a as [|x a IH]; intros [|y b]; simpl; auto.
Qed.

Lemma Qltb_iff x y : Qltb x y = true <-> Qlt x y.
Proof.
  unfold Qltb. rewrite negb_true_iff. split; intros H.
  - apply Qnot_le_lt. intros Hle. apply Qle_bool_iff in Hle. congruence.
  - destruct (Qle_bool y x) eqn:E; [|reflexivity].
    apply Qle_bool_iff in E. exfalso. apply (Qlt_not_le x y); assumption.
Qed.

Lemma mask_firsts (f : mrow -> bool) p ms :
  map fst (filter snd (combine ms
    (zipWith andb
       (zipWith (fun star oldstar => negb (Nat.eqb star oldstar))
          (p :: map m_index ms) (map m_index ms))
       (map f ms))))
  = filter f (firsts (Some p) ms).
Proof.
  revert p; induction ms as [|r t IH]; intros p; [reflexivity|].
  cbn [map zipWith combine filter firsts prev_is].
  destruct (Nat.eqb p (m_index r)); cbn [negb andb filter];
    [rewrite <- (IH (m_index r)); reflexivity|].
  destruct (f r); cbn [filter map fst]; rewrite <- (IH (m_index r)); reflexivity.
Qed.

Lemma good_firsts p ms :
  map fst (filter snd (combine ms
    (zipWith (fun star oldstar => negb (Nat.eqb star oldstar))
       (p :: map m_index ms) (map m_index ms))))
  = firsts (Some p) ms.
Proof.
  revert p; induction ms as [|r t IH]; intros p; [reflexivity|].
  cbn [map zipWith combine filter firsts prev_is].
  destruct (Nat.eqb p (m_index r)); cbn [negb filter map fst];
    rewrite <- (IH (m_index r)); reflexivity.
Qed.

Lemma kept_by_good_match_eq ms : kept_by_good_match ms = firsts None ms.
Proof.
  destruct ms as [|r t]; [reflexivity|].
  unfold kept_by_good_match, good_match. simpl.
  f_equal. apply good_firsts.
Qed.

(** ** Unfolding [join_catalogs] *)

Lemma join_sorted_ok srt ix left right names ms :
  join_sorted srt ix left right = Ok (names, ms) ->
  exists rr,
    take_rows (rows right) (map fst ix) = Ok rr /\
    names = hstack_names3 ["index"; "distance"] (colnames left) (colnames right) /\
    has_dup names = false /\
    mem "index" names = true /\ mem "distance" names = true /\
    ms = srt (hstack_rows ix (rows left) rr).
Proof.
  unfold join_sorted, join_matched.
  destruct (take_rows (rows right) (map fst ix)) as [rr|e]; cbn [bind];
    [|intros; discriminate].
  destruct (has_dup (hstack_names3 ["index"; "distance"] (colnames left) (colnames right)))
    eqn:D; cbn [bind]; [intros; discriminate|].
  destruct (hstack_lengths _) as [[]|e]; cbn [bind]; [|intros; discriminate].
  destruct (mem "index" (hstack_names3 ["index"; "distance"] (colnames left) (colnames right))
    && mem "distance" (hstack_names3 ["index"; "distance"] (colnames left) (colnames right)))
    eqn:K; [|intros; discriminate].
  intros H. injection H as <- <-. apply andb_true_iff in K as [K1 K2].
  exists rr. repeat split; auto.
Qed.

Lemma take_rows_length rs ix rr : take_rows rs ix = Ok rr -> List.length rr = List.length ix.
Proof.
  revert rr. induction ix as [|i ix IH]; intros rr; simpl; [intros H; injection H as <-; reflexivity|].
  destruct (nth_error rs i); [|discriminate].
  destruct (take_rows rs ix) as [rr'|e]; simpl; [|discriminate].
  intros H. injection H as <-. simpl. rewrite (IH rr' eq_refl). reflexivity.
Qed.

Lemma hstack_lengths_ok n m k : hstack_lengths [n; m; k] = Ok tt -> n = m /\ m = k.
Proof.
  unfold hstack_lengths. cbn [fold_right forallb].
  destruct (Nat.eqb _ n) eqn:E1, (Nat.eqb _ m) eqn:E2, (Nat.eqb _ k) eqn:E3; cbn [andb];
    try (destruct (existsb _ _); discriminate).
  intros _. apply Nat.eqb_eq in E1, E2, E3. lia.
Qed.

Lemma join_sorted_len srt ix left right names ms :
  join_sorted srt ix left right = Ok (names, ms) -> List.length ix = List.length (rows left).
Proof.
  unfold join_sorted, join_matched.
  destruct (take_rows (rows right) (map fst ix)) as [rr|e] eqn:Ht; cbn [bind];
    [|intros; discriminate].
  destruct (has_dup _); cbn [bind]; [intros; discriminate|].
  destruct (hstack_lengths _) as [[]|e] eqn:Hl; cbn [bind]; [|intros; discriminate].
  intros _. apply hstack_lengths_ok in Hl. lia.
Qed.

Lemma join_masked_eq srt cut ix left right :
  join_masked srt cut ix left right =
  (m <- join_sorted srt ix left right;;
   let (names, ms) := m in
   Ok (names, filter (fun r => Qltb (m_distance r) cut) (firsts None ms))).
Proof.
  unfold join_masked.
  destruct (join_sorted srt ix left right) as [[names ms]|e]; simpl; [|reflexivity].
  destruct ms as [|r t]; [reflexivity|].
  unfold np_mul, good_match, nearby. cbn [map tl].
  set (Z := zipWith (fun star oldstar => negb (Nat.eqb star oldstar))
              (m_index r :: map m_index t) (map m_index t)).
  assert (HZ : List.length Z = List.length t).
  { unfold Z. rewrite zipWith_length. cbn [List.length]. rewrite length_map. lia. }
  cbn [List.length]. rewrite HZ, length_map, Nat.eqb_refl. cbn [bind zipWith andb].
  unfold bool_index. cbn [List.length].
  rewrite zipWith_length, HZ, length_map, Nat.min_id, Nat.eqb_refl. cbn [bind].
  unfold Z. cbn [combine filter snd firsts prev_is andb].
  destruct (Qltb (m_distance r) cut); cbn [map fst];
    rewrite (mask_firsts (fun r0 => Qltb (m_distance r0) cut) (m_index r) t);
    reflexivity.
Qed.


Lemma join_catalogs_upto_eq srt cut ix left right :
  join_catalogs_upto srt cut ix left right =
  (m <- join_sorted srt ix left right;;
   let (names, ms) := m in
   Ok (mkTable
         (filter (fun n => negb (String.eqb n "index" || String.eqb n "distance")) names)
         (map (fun r => app (m_left r) (m_right r))
            (filter (fun r => Qltb (m_distance r) cut) (firsts None ms))))).
Proof.
  unfold join_catalogs_upto. rewrite join_masked_eq.
  destruct (join_sorted srt ix left right) as [[names ms]|e]; reflexivity.
Qed.

(** ** Properties of the first-of-run selection *)

Lemma firsts_sub (f : mrow -> bool) o l :
  exists d, Permutation l (filter f (firsts o l) ++ d).
Proof.
  revert o; induction l as [|r t IH]; intros o; simpl.
  - exists []. constructor.
  - destruct (IH (Some (m_index r))) as [d Hd].
    destruct (prev_is o (m_index r)); simpl; [|destruct (f r)].
    + exists (r :: d). eapply perm_trans; [apply perm_skip, Hd | apply Permutation_middle].
    + exists d. apply perm_skip, Hd.
    + exists (r :: d). eapply perm_trans; [apply perm_skip, Hd | apply Permutation_middle].
Qed.

Lemma In_firsts o l x : In x (firsts o l) -> In x l.
Proof.
  revert o; induction l as [|r t IH]; intros o; simpl; [tauto|].
  destruct (prev_is o (m_index r)); simpl; intros H.
  - right. eapply IH; eauto.
  - destruct H as [H | H]; [left; exact H | right; eapply IH; eauto].
Qed.

Lemma Forall_key_le_index r t :
  Forall (key_le r) t -> Forall (fun x => m_index r <= m_index x) t.
Proof.
  intros H. eapply Forall_impl; [|exact H].
  intros x [Hx | [Hx _]]; lia.
Qed.

Lemma firsts_strict l o :
  StronglySorted key_le l ->
  (forall p, o = Some p -> Forall (fun r => p <= m_index r) l) ->
  Forall (fun r => match o with Some p => p < m_index r | None => True end) (firsts o l) /\
  StronglySorted (fun a b => m_index a < m_index b) (firsts o l).
Proof.
  revert o; induction l as [|r t IH]; intros o Hs Ho; simpl.
  - split; constructor.
  - apply StronglySorted_inv in Hs as [Hs Hr].
    pose proof (Forall_key_le_index r t Hr) as Hr'.
    destruct (IH (Some (m_index r)) Hs) as [IH1 IH2].
    { intros p Hp. injection Hp as <-. exact Hr'. }
    destruct (prev_is o (m_index r)) eqn:E.
    + destruct o as [p|]; [|discriminate]. simpl in E. apply Nat.eqb_eq in E.
      subst p. split; assumption.
    + split.
      * constructor.
        -- destruct o as [p|]; [|exact I].
           simpl in E. apply Nat.eqb_neq in E.
           specialize (Ho p eq_refl). inversion Ho; lia.
        -- eapply Forall_impl; [|exact IH1]. simpl.
           intros x Hx. destruct o as [p|]; [|exact I].
           specialize (Ho p eq_refl). inversion Ho; lia.
      * constructor; assumption.
Qed.

Lemma StronglySorted_filter {A} (R : A -> A -> Prop) (f : A -> bool) l :
  StronglySorted R l -> StronglySorted R (filter f l).
Proof.
  induction l as [|x l IH]; simpl; intros H; [constructor|].
  apply StronglySorted_inv in H as [H1 H2].
  destruct (f x); [|apply IH, H1].
  constructor; [apply IH, H1|].
  apply Forall_forall. intros y Hy. apply filter_In in Hy as [Hy _].
  rewrite Forall_forall in H2. apply H2, Hy.
Qed.

Lemma StronglySorted_map_index l :
  StronglySorted (fun a b => m_index a < m_index b) l ->
  StronglySorted lt (map m_index l).
Proof.
  induction l as [|x l IH]; simpl; intros H; [constructor|].
  apply StronglySorted_inv in H as [H1 H2].
  constructor; [apply IH, H1|].
  apply Forall_map. exact H2.
Qed.

Lemma StronglySorted_lt_NoDup l : StronglySorted lt l -> NoDup l.
Proof.
  induction l as [|x l IH]; intros H; [constructor|].
  apply StronglySorted_inv in H as [H1 H2].
  constructor; [|apply IH, H1].
  intros Hx. rewrite Forall_forall in H2. specialize (H2 x Hx). lia.
Qed.

Lemma filter_index_gt R k t :
  Forall (fun x => k <= m_index x) t -> R < k ->
  filter (fun r => Nat.eqb (m_index r) R) t = [].
Proof.
  induction t as [|x t IH]; simpl; intros H Hk; [reflexivity|].
  inversion H as [|? ? Hx Ht]; subst.
  destruct (Nat.eqb (m_index x) R) eqn:E; [apply Nat.eqb_eq in E; lia|].
  apply IH; assumption.
Qed.

Lemma filter_index_firsts R l o :
  StronglySorted key_le l ->
  (forall p, o = Some p -> Forall (fun r => p <= m_index r) l) ->
  filter (fun r => Nat.eqb (m_index r) R) (firsts o l) =
  if prev_is o R then [] else hd_list (filter (fun r => Nat.eqb (m_index r) R) l).
Proof.
  revert o; induction l as [|r t IH]; intros o Hs Ho; simpl.
  - destruct (prev_is o R); reflexivity.
  - apply StronglySorted_inv in Hs as [Hs Hr].
    pose proof (Forall_key_le_index r t Hr) as Hr'.
    assert (IH' := IH (Some (m_index r)) Hs).
    assert (Hsome : forall p, Some (m_index r) = Some p ->
                    Forall (fun x => p <= m_index x) t).
    { intros p Hp. injection Hp as <-. exact Hr'. }
    specialize (IH' Hsome). simpl in IH'.
    destruct (prev_is o (m_index r)) eqn:E.
    + destruct o as [p|]; [|discriminate]. simpl in E |- *. apply Nat.eqb_eq in E. subst p.
      rewrite IH'. destruct (Nat.eqb (m_index r) R); reflexivity.
    + simpl. destruct (Nat.eqb (m_index r) R) eqn:ER.
      * rewrite IH'. apply Nat.eqb_eq in ER. subst R.
        destruct o as [p|]; simpl in E |- *; [rewrite E|]; reflexivity.
      * rewrite IH'. destruct (prev_is o R) eqn:EO; [|reflexivity].
        destruct o as [p|]; [|discriminate]. simpl in EO. apply Nat.eqb_eq in EO. subst p.
        specialize (Ho R eq_refl). inversion Ho as [|? ? HR _]; subst.
        apply Nat.eqb_neq in ER.
        rewrite (filter_index_gt R (m_index r) t Hr'); [reflexivity | lia].
Qed.

Lemma sorted_strong srt l :
  sorts_by_key srt -> Permutation l (srt l) /\ StronglySorted key_le (srt l).
Proof.
  intros Hs. destruct (Hs l) as [Hp Ho]. split; [exact Hp|].
  apply Sorted_StronglySorted; [exact key_le_trans | exact Ho].
Qed.

Lemma take_rows_det rs ix rr rr' : take_rows rs ix = Ok rr -> take_rows rs ix = Ok rr' -> rr = rr'.
Proof. intros H1 H2. rewrite H1 in H2. injection H2 as ->. reflexivity. Qed.

Lemma hstack_rows_In rs ix ls rr x :
  take_rows rs (map fst ix) = Ok rr -> In x (hstack_rows ix ls rr) ->
  nth_error rs (m_index x) = Some (m_right x) /\
  In (m_index x, m_distance x) ix /\ In (m_left x) ls.
Proof.
  revert ls rr; induction ix as [|[i d] ix IH]; intros ls rr Ht Hx; [destruct Hx|].
  simpl in Ht. destruct (nth_error rs i) as [r|] eqn:Ei; [|discriminate].
  destruct (take_rows rs (map fst ix)) as [rr'|e] eqn:Et; simpl in Ht; [|discriminate].
  injection Ht as <-. destruct ls as [|l ls]; [destruct Hx|].
  simpl in Hx. destruct Hx as [<- | Hx]; simpl.
  - split; [exact Ei | split; left; reflexivity].
  - destruct (IH ls rr' eq_refl Hx) as [H1 [H2 H3]].
    split; [exact H1 | split; right; assumption].
Qed.

Lemma join_masked_ok srt cut ix left right names sel :
  join_masked srt cut ix left right = Ok (names, sel) ->
  exists ms, join_sorted srt ix left right = Ok (names, ms) /\
             sel = filter (fun r => Qltb (m_distance r) cut) (firsts None ms).
Proof.
  rewrite join_masked_eq.
  destruct (join_sorted srt ix left right) as [[names' ms]|e]; simpl; [|discriminate].
  intros H. injection H as <- <-. exists ms. split; reflexivity.
Qed.

Lemma join_upto_ok srt cut ix left right T :
  join_catalogs_upto srt cut ix left right = Ok T ->
  exists names sel, join_masked srt cut ix left right = Ok (names, sel) /\
    rows T = map (fun r => app (m_left r) (m_right r)) sel /\
    colnames T = filter (fun n => negb (String.eqb n "index" || String.eqb n "distance")) names.
Proof.
  unfold join_catalogs_upto.
  destruct (join_masked srt cut ix left right) as [[names sel]|e]; simpl; [|discriminate].
  intros H. injection H as <-. exists names, sel. repeat split; reflexivity.
Qed.

(** Facts about the selected rows shared by several claims. *)
Lemma selected_facts srt cut ix left right names sel :
  sorts_by_key srt ->
  join_masked srt cut ix left right = Ok (names, sel) ->
  Forall (fun r => nth_error (rows right) (m_index r) = Some (m_right r)) sel /\
  StronglySorted (fun a b => m_index a < m_index b) sel.
Proof.
  intros Hs Hm.
  destruct (join_masked_ok _ _ _ _ _ _ _ Hm) as [ms [Hso ->]].
  destruct (join_sorted_ok _ _ _ _ _ _ Hso) as [rr [Ht [_ [_ [_ [_ ->]]]]]].
  destruct (sorted_strong srt (hstack_rows ix (rows left) rr) Hs) as [Hp Hss].
  split.
  - apply Forall_forall. intros x Hx.
    apply filter_In in Hx as [Hx _]. apply In_firsts in Hx.
    apply (Permutation_in _ (Permutation_sym Hp)) in Hx.
    exact (proj1 (hstack_rows_In _ _ _ _ _ Ht Hx)).
  - apply StronglySorted_filter.
    apply (firsts_strict _ None Hss). intros p Hp'. discriminate.
Qed.

Lemma Q_eq_dec (x y : Q) : {x = y} + {x <> y}.
Proof. decide equality; [apply Pos.eq_dec | apply Z.eq_dec]. Defined.

Lemma value_eq_dec (x y : value) : {x = y} + {x <> y}.
Proof. decide equality; [apply Z.eq_dec | apply Q_eq_dec | apply string_dec]. Defined.

Lemma mrow_eq_dec (x y : mrow) : {x = y} + {x <> y}.
Proof.
  decide equality; try apply (list_eq_dec value_eq_dec).
  - apply Q_eq_dec.
  - apply Nat.eq_dec.
Defined.

(** ** Claims *)

(** C1: when left records A and B are both nearest to the right record
    [R] and A is strictly closer than every other left record nearest to
    [R], the [good_match] mask keeps exactly A's row among the rows with
    index [R]; B's row is absent from the selected rows, whatever the
    cutoff, and it is not re-paired: the selected rows are a
    sub-multiset of the candidate pairs and B's pair is among the
    dropped ones. *)
Theorem C1_closer_wins srt cut ix left right rr names ms a b R :
  sorts_by_key srt ->
  take_rows (rows right) (map fst ix) = Ok rr ->
  join_sorted srt ix left right = Ok (names, ms) ->
  In a (hstack_rows ix (rows left) rr) -> m_index a = R ->
  (forall c, In c (hstack_rows ix (rows left) rr) -> m_index c = R -> c <> a ->
             Qlt (m_distance a) (m_distance c)) ->
  In b (hstack_rows ix (rows left) rr) -> m_index b = R -> b <> a ->
  filter (fun r => Nat.eqb (m_index r) R) (kept_by_good_match ms) = [a] /\
  exists sel dropped,
    join_masked srt cut ix left right = Ok (names, sel) /\
    ~ In b sel /\
    Permutation (hstack_rows ix (rows left) rr) (sel ++ dropped) /\
    In b dropped.
Proof.
  intros Hs Ht Hso Ha HaR Hmin Hb HbR Hba.
  destruct (join_sorted_ok _ _ _ _ _ _ Hso) as [rr' [Ht' [_ [_ [_ [_ Hms]]]]]].
  rewrite (take_rows_det _ _ _ _ Ht' Ht) in Hms. clear rr' Ht'.
  set (cands := hstack_rows ix (rows left) rr) in *.
  destruct (sorted_strong srt cands Hs) as [Hp Hss]. rewrite <- Hms in Hp, Hss.
  assert (Hkept : filter (fun r => Nat.eqb (m_index r) R) (kept_by_good_match ms) = [a]).
  { rewrite kept_by_good_match_eq.
    rewrite (filter_index_firsts R ms None Hss); [|intros p Hp'; discriminate].
    simpl.
    assert (HaF : In a (filter (fun r => Nat.eqb (m_index r) R) ms)).
    { apply filter_In. split; [apply (Permutation_in _ Hp Ha) | apply Nat.eqb_eq, HaR]. }
    pose proof (StronglySorted_filter _ (fun r => Nat.eqb (m_index r) R) _ Hss) as HsF.
    destruct (filter (fun r => Nat.eqb (m_index r) R) ms) as [|h rest] eqn:EF;
      [destruct HaF|].
    simpl. f_equal.
    destruct (mrow_eq_dec h a) as [E | E]; [exact E|].
    exfalso.
    assert (Hh : In h (filter (fun r => Nat.eqb (m_index r) R) ms)) by (rewrite EF; left; reflexivity).
    apply filter_In in Hh as [Hh HhR]. apply Nat.eqb_eq in HhR.
    destruct HaF as [HaF | HaF]; [exact (E HaF)|].
    apply StronglySorted_inv in HsF as [_ HsF].
    rewrite Forall_forall in HsF. specialize (HsF a HaF).
    assert (Hlt : Qlt (m_distance a) (m_distance h)).
    { apply Hmin; [apply (Permutation_in _ (Permutation_sym Hp) Hh) | exact HhR |].
      intros ->. exact (E eq_refl). }
    destruct HsF as [HsF | [_ HsF]]; [lia|].
    exact (Qlt_not_le _ _ Hlt HsF). }
  split; [exact Hkept|].
  destruct (firsts_sub (fun r => Qltb (m_distance r) cut) None ms) as [d Hd].
  exists (filter (fun r => Qltb (m_distance r) cut) (firsts None ms)), d.
  assert (Hnb : ~ In b (filter (fun r => Qltb (m_distance r) cut) (firsts None ms))).
  { intros Hin. apply filter_In in Hin as [Hin _].
    assert (Hin' : In b (filter (fun r => Nat.eqb (m_index r) R) (kept_by_good_match ms))).
    { rewrite kept_by_good_match_eq. apply filter_In. split; [exact Hin | apply Nat.eqb_eq, HbR]. }
    rewrite Hkept in Hin'. destruct Hin' as [Hin' | []]. exact (Hba (eq_sym Hin')). }
  assert (Hpd : Permutation cands (filter (fun r => Qltb (m_distance r) cut) (firsts None ms) ++ d))
    by (eapply perm_trans; [exact Hp | exact Hd]).
  split; [rewrite join_masked_eq, Hso; reflexivity|].
  split; [exact Hnb|]. split; [exact Hpd|].
  apply (Permutation_in _ Hpd) in Hb. apply in_app_or in Hb as [Hb | Hb]; [contradiction | exact Hb].
Qed.

(** C2: every merged row returned by [join_catalogs] (for any cutoff)
    is [left row ++ right row] for a selected row whose right part is
    [right_table[index]], and no right-table index occurs in two
    selected rows. *)
Theorem C2_no_right_reuse srt cut ix left right T :
  sorts_by_key srt ->
  join_catalogs_upto srt cut ix left right = Ok T ->
  exists sel,
    rows T = map (fun r => app (m_left r) (m_right r)) sel /\
    Forall (fun r => nth_error (rows right) (m_index r) = Some (m_right r)) sel /\
    NoDup (map m_index sel).
Proof.
  intros Hs HT.
  destruct (join_upto_ok _ _ _ _ _ _ HT) as [names [sel [Hm [Hr _]]]].
  destruct (selected_facts _ _ _ _ _ _ _ Hs Hm) as [Hf Hss].
  exists sel. split; [exact Hr|]. split; [exact Hf|].
  apply StronglySorted_lt_NoDup, StronglySorted_map_index, Hss.
Qed.

(** C3 (as the code has it): among the rows kept by the [good_match]
    mask, a row is in the result exactly when its distance is strictly
    below the cutoff ([matched['distance'] < cutoff]). *)
Theorem C3_cutoff_strict srt cut ix left right names ms sel :
  join_sorted srt ix left right = Ok (names, ms) ->
  join_masked srt cut ix left right = Ok (names, sel) ->
  forall c, In c (kept_by_good_match ms) ->
    (In c sel <-> Qlt (m_distance c) cut).
Proof.
  intros Hso Hm c Hc.
  destruct (join_masked_ok _ _ _ _ _ _ _ Hm) as [ms' [Hso' ->]].
  rewrite Hso in Hso'. injection Hso' as <-.
  rewrite kept_by_good_match_eq in Hc.
  rewrite filter_In, Qltb_iff. tauto.
Qed.

(** C3 counterexample: a single candidate whose distance is exactly the
    float64 [coord.Angle('3 arcsec').degree] survives the [good_match]
    mask but is dropped: the test is [distance < cutoff], not
    [distance > cutoff] for exclusion. *)
Lemma C3_counterexample :
  let ix := [(0%nat, three_arcsec)] in
  let L := mkTable ["id"] [[VInt 1]] in
  let Rt := mkTable ["mag"] [[VNum 20]] in
  let c := mkMrow 0 three_arcsec [VInt 1] [VNum 20] in
  join_sorted isort ix L Rt = Ok (["index"; "distance"; "id"; "mag"], [c]) /\
  In c (kept_by_good_match [c]) /\
  ~ Qlt three_arcsec (m_distance c) /\
  join_masked isort three_arcsec ix L Rt = Ok (["index"; "distance"; "id"; "mag"], []) /\
  join_catalogs isort ix L Rt = Ok (mkTable ["id"; "mag"] []).
Proof.
  split; [vm_compute; reflexivity|].
  split; [left; reflexivity|].
  split; [apply Qle_not_lt; apply Qle_refl|].
  split; vm_compute; reflexivity.
Qed.

(** C9: the selected rows, hence the merged rows (one per selected row,
    in the same order), come in strictly ascending order of the matched
    right-table index. *)
Theorem C9_ascending_right_index srt cut ix left right T :
  sorts_by_key srt ->
  join_catalogs_upto srt cut ix left right = Ok T ->
  exists sel,
    rows T = map (fun r => app (m_left r) (m_right r)) sel /\
    Forall (fun r => nth_error (rows right) (m_index r) = Some (m_right r)) sel /\
    Sorted lt (map m_index sel).
Proof.
  intros Hs HT.
  destruct (join_upto_ok _ _ _ _ _ _ HT) as [names [sel [Hm [Hr _]]]].
  destruct (selected_facts _ _ _ _ _ _ _ Hs Hm) as [Hf Hss].
  exists sel. split; [exact Hr|]. split; [exact Hf|].
  apply StronglySorted_Sorted, StronglySorted_map_index, Hss.
Qed.

(** C10: if the closest candidate [a] of the right record [R] is not
    within the cutoff, no selected row has index [R]: no farther
    candidate of [R] is promoted. *)
Theorem C10_no_promotion srt cut ix left right rr names sel a R :
  sorts_by_key srt ->
  take_rows (rows right) (map fst ix) = Ok rr ->
  join_masked srt cut ix left right = Ok (names, sel) ->
  In a (hstack_rows ix (rows left) rr) -> m_index a = R ->
  (forall c, In c (hstack_rows ix (rows left) rr) -> m_index c = R ->
             Qle (m_distance a) (m_distance c)) ->
  Qle cut (m_distance a) ->
  forall c, In c sel -> m_index c <> R.
Proof.
  intros Hs Ht Hm Ha HaR Hmin Hcut c Hc HcR.
  destruct (join_masked_ok _ _ _ _ _ _ _ Hm) as [ms [Hso ->]].
  destruct (join_sorted_ok _ _ _ _ _ _ Hso) as [rr' [Ht' [_ [_ [_ [_ Hms]]]]]].
  rewrite (take_rows_det _ _ _ _ Ht' Ht) in Hms.
  destruct (sorted_strong srt (hstack_rows ix (rows left) rr) Hs) as [Hp _].
  rewrite <- Hms in Hp.
  apply filter_In in Hc as [Hc Hnear]. apply Qltb_iff in Hnear.
  apply In_firsts in Hc. apply (Permutation_in _ (Permutation_sym Hp)) in Hc.
  specialize (Hmin c Hc HcR).
  apply (Qlt_not_le _ _ Hnear). eapply Qle_trans; eauto.
Qed.

Lemma length_filter_mono {A} (f g : A -> bool) l :
  (forall x, f x = true -> g x = true) ->
  List.length (filter f l) <= List.length (filter g l).
Proof.
  intros H. induction l as [|x l IH]; simpl; [lia|].
  destruct (f x) eqn:Ef; [rewrite (H x Ef); simpl; lia|].
  destruct (g x); simpl; lia.
Qed.

(** C6: for fixed inputs, raising the cutoff never decreases the number
    of merged rows. *)
Theorem C6_monotone_cutoff srt t1 t2 ix left right T1 T2 :
  Qle t1 t2 ->
  join_catalogs_upto srt t1 ix left right = Ok T1 ->
  join_catalogs_upto srt t2 ix left right = Ok T2 ->
  List.length (rows T1) <= List.length (rows T2).
Proof.
  intros Ht H1 H2.
  rewrite join_catalogs_upto_eq in H1, H2.
  destruct (join_sorted srt ix left right) as [[names ms]|e]; simpl in H1, H2; [|discriminate].
  injection H1 as <-. injection H2 as <-. simpl.
  rewrite !length_map. apply length_filter_mono.
  intros x Hx. apply Qltb_iff in Hx. apply Qltb_iff.
  eapply Qlt_le_trans; eauto.
Qed.

Lemma filter_all_false {A} (f : A -> bool) l :
  (forall x, In x l -> f x = false) -> filter f l = [].
Proof.
  induction l as [|x l IH]; simpl; intros H; [reflexivity|].
  rewrite (H x (or_introl eq_refl)). apply IH. intros y Hy. apply H. right. exact Hy.
Qed.

(** C4 (as the code has it): [join_catalogs] has no tolerance argument
    and raises no angle error: whether it fails does not depend on the
    cutoff at all, and with a non-positive cutoff (match distances being
    non-negative) a successful call returns an empty catalog. *)
Theorem C4_no_angle_error srt ix left right :
  sorts_by_key srt ->
  (forall t1 t2 e,
     join_catalogs_upto srt t1 ix left right = Err e <->
     join_catalogs_upto srt t2 ix left right = Err e) /\
  (forall t T,
     Qle t 0 -> Forall (fun p => Qle 0 (snd p)) ix ->
     join_catalogs_upto srt t ix left right = Ok T -> rows T = []).
Proof.
  intros Hs. split.
  - intros t1 t2 e. rewrite !join_catalogs_upto_eq.
    destruct (join_sorted srt ix left right) as [[names ms]|e']; simpl;
      split; intros H; congruence.
  - intros t T Ht Hpos HT.
    rewrite join_catalogs_upto_eq in HT.
    destruct (join_sorted srt ix left right) as [[names ms]|e] eqn:Hso; simpl in HT;
      [|discriminate].
    injection HT as <-. simpl.
    destruct (join_sorted_ok _ _ _ _ _ _ Hso) as [rr [Ht' [_ [_ [_ [_ Hms]]]]]].
    destruct (sorted_strong srt (hstack_rows ix (rows left) rr) Hs) as [Hp _].
    rewrite <- Hms in Hp.
    rewrite filter_all_false; [reflexivity|].
    intros x Hx. apply In_firsts in Hx. apply (Permutation_in _ (Permutation_sym Hp)) in Hx.
    destruct (hstack_rows_In _ _ _ _ _ Ht' Hx) as [_ [Hix _]].
    rewrite Forall_forall in Hpos. specialize (Hpos _ Hix). simpl in Hpos.
    destruct (Qltb (m_distance x) t) eqn:E; [|reflexivity].
    apply Qltb_iff in E. exfalso.
    apply (Qlt_not_le _ _ E). eapply Qle_trans; eauto.
Qed.

(** C4 counterexample: with the cutoff set to [0] the call does not
    fail; it returns an empty catalog. *)
Lemma C4_counterexample :
  join_catalogs_upto isort 0 [(0%nat, 1 # 7200)]
    (mkTable ["id"] [[VInt 1]]) (mkTable ["mag"] [[VNum 20]])
  = Ok (mkTable ["id"; "mag"] []).
Proof. vm_compute. reflexivity. Qed.



(** ** Column names: hstack and the renaming loop *)

Lemma mem_In n l : mem n l = true <-> In n l.
Proof.
  induction l as [|x l IH]; simpl; [split; [discriminate | tauto]|].
  rewrite orb_true_iff, IH, String.eqb_eq. split; intros [H | H]; auto.
Qed.

Lemma has_dup_NoDup l : has_dup l = false -> NoDup l.
Proof.
  induction l as [|x l IH]; simpl; intros H; [constructor|].
  apply orb_false_iff in H as [H1 H2]. constructor; [|apply IH, H2].
  intros Hx. apply mem_In in Hx. congruence.
Qed.

Lemma app_us_neq_index s k : s ++ String "_" k <> "index".
Proof.
  intros H.
  do 5 (destruct s as [|? s]; [discriminate | injection H as _ H]).
  destruct s; discriminate.
Qed.

Lemma app_us_neq_distance s k : s ++ String "_" k <> "distance".
Proof.
  intros H.
  do 8 (destruct s as [|? s]; [discriminate | injection H as _ H]).
  destruct s; discriminate.
Qed.

(** A left or right column name after hstack's renaming is never
    ['index'] or ['distance']. *)
Lemma uniq_not_key others k n :
  In ["index"; "distance"] others ->
  uniq_col_name others k n <> "index" /\ uniq_col_name others k n <> "distance".
Proof.
  intros Ho. unfold uniq_col_name.
  destruct (existsb (mem n) others) eqn:E.
  - split; [apply app_us_neq_index | apply app_us_neq_distance].
  - split; intros ->; apply Bool.not_true_iff_false in E; apply E;
      apply existsb_exists; exists ["index"; "distance"]; split; auto.
Qed.

Lemma filter_keys_map others k l :
  In ["index"; "distance"] others ->
  filter (fun n => negb (String.eqb n "index" || String.eqb n "distance"))
    (map (uniq_col_name others k) l) = map (uniq_col_name others k) l.
Proof.
  intros Ho. induction l as [|x l IH]; simpl; [reflexivity|].
  destruct (uniq_not_key others k x Ho) as [H1 H2].
  apply String.eqb_neq in H1, H2. rewrite H1, H2. simpl. f_equal. exact IH.
Qed.

Lemma join_catalogs_names srt cut ix left right T :
  join_catalogs_upto srt cut ix left right = Ok T ->
  colnames T =
    (map (uniq_col_name [["index"; "distance"]; colnames right] "2") (colnames left) ++
     map (uniq_col_name [["index"; "distance"]; colnames left] "3") (colnames right))%list /\
  NoDup (colnames T).
Proof.
  intros HT.
  destruct (join_upto_ok _ _ _ _ _ _ HT) as [names [sel [Hm [_ Hc]]]].
  destruct (join_masked_ok _ _ _ _ _ _ _ Hm) as [ms [Hso _]].
  destruct (join_sorted_ok _ _ _ _ _ _ Hso) as [rr [_ [Hn [D [K1 [K2 _]]]]]].
  set (rest := (map (uniq_col_name [["index"; "distance"]; colnames right] "2") (colnames left) ++
               map (uniq_col_name [["index"; "distance"]; colnames left] "3") (colnames right))%list) in *.
  assert (Hrest : filter (fun n => negb (String.eqb n "index" || String.eqb n "distance")) rest = rest).
  { unfold rest. rewrite filter_app, !filter_keys_map; auto; simpl; auto. }
  assert (Hnrest : ~ In "index" rest).
  { unfold rest. intros H. apply in_app_or in H as [H | H]; apply in_map_iff in H as [x [Hx _]];
      [apply (proj1 (uniq_not_key [["index"; "distance"]; colnames right] "2" x
                       (or_introl eq_refl)))
      | apply (proj1 (uniq_not_key [["index"; "distance"]; colnames left] "3" x
                       (or_introl eq_refl)))]; exact Hx. }
  assert (Hnrest' : ~ In "distance" rest).
  { unfold rest. intros H. apply in_app_or in H as [H | H]; apply in_map_iff in H as [x [Hx _]];
      [apply (proj2 (uniq_not_key [["index"; "distance"]; colnames right] "2" x
                       (or_introl eq_refl)))
      | apply (proj2 (uniq_not_key [["index"; "distance"]; colnames left] "3" x
                       (or_introl eq_refl)))]; exact Hx. }
  unfold hstack_names3 in Hn. fold rest in Hn. simpl in Hn.
  assert (Hi : uniq_col_name [colnames left; colnames right] "1" "index" = "index").
  { rewrite Hn in K1. apply mem_In in K1. destruct K1 as [K1 | [K1 | K1]];
      [exact K1 | | contradiction].
    exfalso. unfold uniq_col_name in K1.
    destruct (existsb (mem "distance") _); discriminate. }
  assert (Hd : uniq_col_name [colnames left; colnames right] "1" "distance" = "distance").
  { rewrite Hn in K2. apply mem_In in K2. rewrite Hi in K2.
    destruct K2 as [K2 | [K2 | K2]]; [discriminate | exact K2 | contradiction]. }
  rewrite Hn, Hi, Hd in Hc. simpl in Hc. rewrite Hrest in Hc.
  split; [exact Hc|].
  rewrite Hc. apply has_dup_NoDup in D. rewrite Hn, Hi, Hd in D.
  inversion D as [|? ? _ D']. inversion D' as [|? ? _ D'']. exact D''.
Qed.

Lemma map_replace_id (col nw : string) l :
  ~ In col l -> map (fun n => if String.eqb n col then nw else n) l = l.
Proof.
  induction l as [|x l IH]; simpl; intros H; [reflexivity|].
  destruct (String.eqb x col) eqn:E.
  - apply String.eqb_eq in E. subst. exfalso. apply H. left. reflexivity.
  - f_equal. apply IH. tauto.
Qed.

Lemma rename_all_ok todo done res :
  NoDup (map tidy_name done ++ todo)%list ->
  rename_all todo (map tidy_name done ++ todo)%list = Ok res ->
  res = map tidy_name (done ++ todo)%list /\ NoDup res.
Proof.
  revert done; induction todo as [|col todo IH]; intros done Hnd Hr; simpl in Hr.
  - injection Hr as <-. rewrite !app_nil_r. split; [reflexivity | rewrite app_nil_r in Hnd; exact Hnd].
  - unfold rename_column in Hr.
    assert (Hin : mem col (map tidy_name done ++ col :: todo)%list = true).
    { apply mem_In. apply in_or_app. right. left. reflexivity. }
    rewrite Hin in Hr. cbn [negb] in Hr.
    assert (Hcur : NoDup (map tidy_name (done ++ [col]) ++ todo)%list ->
                   rename_all todo (map tidy_name (done ++ [col]) ++ todo)%list = Ok res ->
                   res = map tidy_name (done ++ col :: todo)%list /\ NoDup res).
    { intros Hnd' Hr'. destruct (IH (done ++ [col])%list Hnd' Hr') as [H1 H2].
      rewrite <- app_assoc in H1. split; assumption. }
    destruct (String.eqb col (tidy_name col)) eqn:Eq.
    + apply String.eqb_eq in Eq.
      assert (Heq : (map tidy_name done ++ col :: todo)%list =
                    (map tidy_name (done ++ [col]) ++ todo)%list).
      { rewrite map_app, <- app_assoc. simpl. rewrite <- Eq. reflexivity. }
      rewrite Heq in Hr, Hnd. apply Hcur; [exact Hnd | exact Hr].
    + destruct (mem (tidy_name col) (map tidy_name done ++ col :: todo)%list) eqn:Em;
        [discriminate|].
      cbn [bind] in Hr.
      assert (Hnot1 : ~ In col (map tidy_name done)).
      { intros H. apply (NoDup_remove_2 _ _ _ Hnd). apply in_or_app. left. exact H. }
      assert (Hnot2 : ~ In col todo).
      { intros H. apply (NoDup_remove_2 _ _ _ Hnd). apply in_or_app. right. exact H. }
      assert (Heq : map (fun n => if String.eqb n col then tidy_name col else n)
                      (map tidy_name done ++ col :: todo)%list =
                    (map tidy_name (done ++ [col]) ++ todo)%list).
      { rewrite map_app. simpl. rewrite String.eqb_refl, !map_replace_id by assumption.
        rewrite map_app, <- app_assoc. reflexivity. }
      rewrite Heq in Hr. apply Hcur; [|exact Hr].
      rewrite map_app, <- app_assoc. simpl.
      apply (Permutation_NoDup (Permutation_middle _ _ _)).
      constructor; [|exact (NoDup_remove_1 _ _ _ Hnd)].
      intros H. apply Bool.not_true_iff_false in Em. apply Em, mem_In.
      apply in_app_or in H as [H | H]; apply in_or_app; [left | right; right]; exact H.
Qed.

Lemma replace_us_cons2 c nw x y r :
  replace_us c nw (String x (String y r)) =
  if Ascii.eqb x "_"%char && Ascii.eqb y c
  then String "_"%char (String nw (replace_us c nw r))
  else String x (replace_us c nw (String y r)).
Proof. reflexivity. Qed.

Lemma replace_us_app c nw d s :
  Ascii.eqb "_"%char c = false ->
  replace_us c nw (s ++ String "_" (String d EmptyString)) =
  replace_us c nw s ++
    (if Ascii.eqb d c then String "_" (String nw EmptyString)
     else String "_" (String d EmptyString)).
Proof.
  intros Hc.
  assert (H : forall n s, String.length s <= n ->
    replace_us c nw (s ++ String "_" (String d EmptyString)) =
    replace_us c nw s ++
      (if Ascii.eqb d c then String "_" (String nw EmptyString)
       else String "_" (String d EmptyString))).
  { induction n as [|n IH]; intros s0 Hl.
    - destruct s0; [|simpl in Hl; lia].
      simpl. destruct (Ascii.eqb d c); reflexivity.
    - destruct s0 as [|x s1]; [simpl; destruct (Ascii.eqb d c); reflexivity|].
      destruct s1 as [|y s2].
      + cbn [append replace_us]. rewrite Hc, andb_false_r.
        destruct (Ascii.eqb d c); reflexivity.
      + change (String x (String y s2) ++ String "_" (String d EmptyString))
          with (String x (String y (s2 ++ String "_" (String d EmptyString)))).
        rewrite !replace_us_cons2.
        destruct (Ascii.eqb x "_"%char && Ascii.eqb y c).
        * simpl in Hl. rewrite (IH s2) by lia. reflexivity.
        * simpl in Hl.
          change (String y (s2 ++ String "_" (String d EmptyString)))
            with (String y s2 ++ String "_" (String d EmptyString)).
          rewrite (IH (String y s2)) by (simpl; lia). reflexivity. }
  apply (H (String.length s)). lia.
Qed.

Lemma tidy_name_suffix n :
  tidy_name (n ++ "_2") = tidy_name n ++ "_b" /\
  tidy_name (n ++ "_3") = tidy_name n ++ "_y".
Proof.
  unfold tidy_name. split.
  - rewrite (replace_us_app "2" "b" "2" n) by reflexivity. simpl Ascii.eqb. cbv iota.
    rewrite (replace_us_app "3" "y" "b") by reflexivity. reflexivity.
  - rewrite (replace_us_app "2" "b" "3" n) by reflexivity. simpl Ascii.eqb. cbv iota.
    rewrite (replace_us_app "3" "y" "3") by reflexivity. reflexivity.
Qed.

Lemma join_rows_from_inputs srt cut ix left right T :
  sorts_by_key srt ->
  join_catalogs_upto srt cut ix left right = Ok T ->
  Forall (fun row => exists lrow rrow,
            In lrow (rows left) /\ In rrow (rows right) /\ row = app lrow rrow) (rows T).
Proof.
  intros Hs HT.
  destruct (join_upto_ok _ _ _ _ _ _ HT) as [names [sel [Hm [Hr _]]]].
  destruct (join_masked_ok _ _ _ _ _ _ _ Hm) as [ms [Hso Hsel]].
  destruct (join_sorted_ok _ _ _ _ _ _ Hso) as [rr [Ht [_ [_ [_ [_ Hms]]]]]].
  destruct (sorted_strong srt (hstack_rows ix (rows left) rr) Hs) as [Hp _].
  rewrite <- Hms in Hp. rewrite Hr.
  apply Forall_forall. intros row Hrow. apply in_map_iff in Hrow as [x [<- Hx]].
  rewrite Hsel in Hx. apply filter_In in Hx as [Hx _]. apply In_firsts in Hx.
  apply (Permutation_in _ (Permutation_sym Hp)) in Hx.
  destruct (hstack_rows_In _ _ _ _ _ Ht Hx) as [H1 [_ H3]].
  exists (m_left x), (m_right x). split; [exact H3|]. split; [|reflexivity].
  eapply nth_error_In. exact H1.
Qed.

(** C7: after [join_catalogs] and the caller's renaming loop, the merged
    catalog has one column per left column followed by one per right
    column, all names distinct (the renaming raises rather than
    overwrite), every merged row is a left row followed by a right row,
    and a name [n] present in both catalogs appears as
    [tidy_name n ++ "_b"] (left value) and [tidy_name n ++ "_y"] (right
    value). *)
Theorem C7_collisions_kept srt ix left right T :
  sorts_by_key srt ->
  join_and_tidy srt ix left right = Ok T ->
  colnames T =
    map tidy_name
      (map (uniq_col_name [["index"; "distance"]; colnames right] "2") (colnames left) ++
       map (uniq_col_name [["index"; "distance"]; colnames left] "3") (colnames right))%list /\
  NoDup (colnames T) /\
  Forall (fun row => exists lrow rrow,
            In lrow (rows left) /\ In rrow (rows right) /\ row = app lrow rrow) (rows T) /\
  (forall n, In n (colnames left) -> In n (colnames right) ->
     tidy_name (uniq_col_name [["index"; "distance"]; colnames right] "2" n) =
       tidy_name n ++ "_b" /\
     tidy_name (uniq_col_name [["index"; "distance"]; colnames left] "3" n) =
       tidy_name n ++ "_y").
Proof.
  intros Hs HT. unfold join_and_tidy in HT.
  destruct (join_catalogs srt ix left right) as [T0|e] eqn:HJ; simpl in HT; [|discriminate].
  destruct (rename_all (colnames T0) (colnames T0)) as [names|e] eqn:HR; simpl in HT;
    [|discriminate].
  injection HT as <-. simpl.
  destruct (join_catalogs_names _ _ _ _ _ _ HJ) as [Hc Hnd].
  destruct (rename_all_ok (colnames T0) [] names Hnd HR) as [Hn Hnd'].
  split; [rewrite Hn, <- Hc; reflexivity|].
  split; [exact Hnd'|].
  split; [exact (join_rows_from_inputs _ _ _ _ _ _ Hs HJ)|].
  intros n HL HR'.
  assert (E2 : uniq_col_name [["index"; "distance"]; colnames right] "2" n = n ++ "_2").
  { unfold uniq_col_name.
    replace (existsb (mem n) [["index"; "distance"]; colnames right]) with true; [reflexivity|].
    symmetry. apply existsb_exists. exists (colnames right).
    split; [right; left; reflexivity | apply mem_In, HR']. }
  assert (E3 : uniq_col_name [["index"; "distance"]; colnames left] "3" n = n ++ "_3").
  { unfold uniq_col_name.
    replace (existsb (mem n) [["index"; "distance"]; colnames left]) with true; [reflexivity|].
    symmetry. apply existsb_exists. exists (colnames left).
    split; [right; left; reflexivity | apply mem_In, HL]. }
  rewrite E2, E3. apply tidy_name_suffix.
Qed.

(** ** The store model *)

Lemma upd_length s n o : List.length (upd s n o) = List.length s.
Proof. revert n; induction s as [|x s IH]; intros [|n]; simpl; auto. Qed.

Lemma nth_upd_other s n m o : n <> m -> nth_error (upd s n o) m = nth_error s m.
Proof.
  revert n m; induction s as [|x s IH]; intros [|n] [|m] H; simpl; auto; try lia.
  all: apply IH; lia.
Qed.

Lemma nth_upd_same s n o : n < List.length s -> nth_error (upd s n o) n = Some o.
Proof.
  revert n; induction s as [|x s IH]; intros [|n] H; simpl in *; auto; try lia.
  all: apply IH; lia.
Qed.

Lemma nth_snoc_old (s : store) o n : n < List.length s -> nth_error (app s [o]) n = nth_error s n.
Proof. intros H. apply nth_error_app1. exact H. Qed.

Lemma nth_snoc_new (s : store) o : nth_error (app s [o]) (List.length s) = Some o.
Proof. rewrite nth_error_app2 by lia. rewrite Nat.sub_diag. reflexivity. Qed.

Lemma ltb_snoc (s : store) o : Nat.ltb (List.length s) (List.length (app s [o])) = true.
Proof. apply Nat.ltb_lt. rewrite length_app. simpl. lia. Qed.

(** C8: [join_catalogs] run on a store of Python objects leaves every
    object that existed before the call unchanged (the index table and
    both catalogs included), writes only to objects it allocates itself,
    and returns a fresh object whose value is the pure
    [join_catalogs_upto] of the input values: nothing else of the store
    influences the result. *)
Theorem C8_pure srt cut i_ix i_l i_r s res s' :
  join_catalogs_st srt cut i_ix i_l i_r s = Ok (res, s') ->
  (forall n, n < List.length s -> nth_error s' n = nth_error s n) /\
  List.length s <= res /\
  exists ix left right T,
    nth_error s i_ix = Some (OIndex ix) /\
    nth_error s i_l = Some (OTable left) /\
    nth_error s i_r = Some (OTable right) /\
    join_catalogs_upto srt cut ix left right = Ok T /\
    nth_error s' res = Some (OTable T).
Proof.
  unfold join_catalogs_st, st_bind, st_get_index, st_get_table, st_get_matched,
    st_lift, st_alloc, st_put, st_ret.
  intros H.
  destruct (nth_error s i_ix) as [[ix| |]|] eqn:E1; try discriminate H.
  destruct (nth_error s i_l) as [[|left|]|] eqn:E2; try discriminate H.
  destruct (nth_error s i_r) as [[|right|]|] eqn:E3; try discriminate H.
  destruct (take_rows (rows right) (map fst ix)) as [rr|e] eqn:E4; try discriminate H.
  rewrite nth_snoc_new in H.
  set (s1 := app s [OTable (mkTable (colnames right) rr)]) in H.
  cbn [colnames rows] in H.
  destruct (has_dup (hstack_names3 ["index"; "distance"] (colnames left) (colnames right))) eqn:E5;
    try discriminate H.
  destruct (hstack_lengths [List.length ix; List.length (rows left); List.length rr])
    as [[]|e] eqn:E9; try discriminate H.
  rewrite nth_snoc_new in H.
  set (o2 := OMatched (hstack_names3 ["index"; "distance"] (colnames left) (colnames right))
                      (hstack_rows ix (rows left) rr)) in H.
  set (s2 := app s1 [o2]) in H.
  cbn [fst snd] in H.
  destruct (mem "index" (hstack_names3 ["index"; "distance"] (colnames left) (colnames right)) &&
            mem "distance" (hstack_names3 ["index"; "distance"] (colnames left) (colnames right)))
    eqn:E6; try discriminate H.
  unfold s2 in H. rewrite ltb_snoc in H. fold s2 in H.
  rewrite nth_upd_same in H by (unfold s2; rewrite length_app; simpl; lia).
  cbn [fst snd] in H.
  set (ms := srt (hstack_rows ix (rows left) rr)) in H.
  set (names := hstack_names3 ["index"; "distance"] (colnames left) (colnames right)) in H, E5, E6.
  destruct (np_mul (good_match (map m_index ms)) (nearby cut ms)) as [mask|e] eqn:E7;
    try discriminate H.
  destruct (bool_index ms mask) as [sel|e] eqn:E8; try discriminate H.
  set (s3 := upd s2 (List.length s1) (OMatched names ms)) in H.
  rewrite nth_snoc_new, ltb_snoc in H. cbn [fst snd] in H.
  injection H as <- <-.
  assert (L1 : List.length s1 = S (List.length s)).
  { unfold s1. rewrite length_app. simpl. lia. }
  assert (L3 : List.length s3 = S (S (List.length s))).
  { unfold s3. rewrite upd_length. unfold s2. rewrite length_app, L1. simpl. lia. }
  split; [|split; [lia|]].
  - intros n Hn.
    rewrite nth_upd_other by lia. rewrite nth_snoc_old by lia.
    unfold s3. rewrite nth_upd_other by lia. unfold s2. rewrite nth_snoc_old by lia.
    unfold s1. rewrite nth_snoc_old by lia. reflexivity.
  - eexists ix, left, right, _.
    split; [reflexivity|]. split; [reflexivity|]. split; [reflexivity|].
    split.
    + unfold join_catalogs_upto, join_masked, join_sorted, join_matched.
      rewrite E4. cbn [bind]. fold names. rewrite E5. cbn [bind]. rewrite E9. cbn [bind]. rewrite E6.
      fold ms. cbn [bind]. rewrite E7. cbn [bind]. rewrite E8. cbn [bind]. reflexivity.
    + apply nth_upd_same. rewrite length_app. simpl. lia.
Qed.

(** ** Witnesses *)

Lemma C1_witness :
  filter (fun r => Nat.eqb (m_index r) 0)
    (kept_by_good_match (isort (hstack_rows ex_ix (rows ex_left) ex_rr))) = [ex_a] /\
  exists sel dropped,
    join_masked isort three_arcsec ex_ix ex_left ex_right = Ok (ex_names, sel) /\
    ~ In ex_b sel /\
    Permutation (hstack_rows ex_ix (rows ex_left) ex_rr) (sel ++ dropped) /\
    In ex_b dropped.
Proof.
  apply (C1_closer_wins isort three_arcsec ex_ix ex_left ex_right ex_rr ex_names
           (isort (hstack_rows ex_ix (rows ex_left) ex_rr)) ex_a ex_b 0).
  - apply isort_sorts.
  - vm_compute. reflexivity.
  - vm_compute. reflexivity.
  - vm_compute. left. reflexivity.
  - reflexivity.
  - intros c Hc Hi Hne. vm_compute in Hc.
    destruct Hc as [<- | [<- | [<- | []]]].
    + exfalso. apply Hne. reflexivity.
    + vm_compute. reflexivity.
    + discriminate Hi.
  - vm_compute. right. left. reflexivity.
  - reflexivity.
  - discriminate.
Defined.

Lemma C2_witness :
  exists sel,
    rows (mkTable ["id"; "mag_2"; "mag_3"] [[VInt 1; VNum 10; VNum 20]]) =
      map (fun r => app (m_left r) (m_right r)) sel /\
    Forall (fun r => nth_error (rows ex_right) (m_index r) = Some (m_right r)) sel /\
    NoDup (map m_index sel).
Proof.
  apply (C2_no_right_reuse isort three_arcsec ex_ix ex_left ex_right).
  - apply isort_sorts.
  - vm_compute. reflexivity.
Defined.

Lemma C3_witness :
  Forall (fun c => In c [ex_a] <-> Qlt (m_distance c) three_arcsec)
    (kept_by_good_match (isort (hstack_rows ex_ix (rows ex_left) ex_rr))).
Proof.
  apply Forall_forall.
  apply (C3_cutoff_strict isort three_arcsec ex_ix ex_left ex_right ex_names).
  - vm_compute. reflexivity.
  - vm_compute. reflexivity.
Defined.

Lemma C4_witness :
  (forall t1 t2 e,
     join_catalogs_upto isort t1 ex_ix ex_left ex_right = Err e <->
     join_catalogs_upto isort t2 ex_ix ex_left ex_right = Err e) /\
  rows (mkTable ["id"; "mag_2"; "mag_3"] []) = [].
Proof.
  destruct (C4_no_angle_error isort ex_ix ex_left ex_right isort_sorts) as [H1 H2].
  split; [exact H1|].
  apply (H2 0%Q (mkTable ["id"; "mag_2"; "mag_3"] [])).
  - apply Qle_refl.
  - repeat constructor; simpl; vm_compute; discriminate.
  - vm_compute. reflexivity.
Defined.


Lemma C6_witness :
  List.length (rows (mkTable ["id"; "mag_2"; "mag_3"] [[VInt 1; VNum 10; VNum 20]])) <=
  List.length (rows (mkTable ["id"; "mag_2"; "mag_3"]
     [[VInt 1; VNum 10; VNum 20]; [VInt 3; VNum 12; VNum 21]])).
Proof.
  apply (C6_monotone_cutoff isort three_arcsec (1 # 10) ex_ix ex_left ex_right).
  - vm_compute. discriminate.
  - vm_compute. reflexivity.
  - vm_compute. reflexivity.
Defined.

Lemma C7_witness :
  colnames (mkTable ["id"; "mag_b"; "mag_y"] [[VInt 1; VNum 10; VNum 20]]) =
    map tidy_name
      (map (uniq_col_name [["index"; "distance"]; colnames ex_right] "2") (colnames ex_left) ++
       map (uniq_col_name [["index"; "distance"]; colnames ex_left] "3") (colnames ex_right))%list /\
  NoDup (colnames (mkTable ["id"; "mag_b"; "mag_y"] [[VInt 1; VNum 10; VNum 20]])) /\
  Forall (fun row => exists lrow rrow,
            In lrow (rows ex_left) /\ In rrow (rows ex_right) /\ row = app lrow rrow)
    (rows (mkTable ["id"; "mag_b"; "mag_y"] [[VInt 1; VNum 10; VNum 20]])) /\
  (forall n, In n (colnames ex_left) -> In n (colnames ex_right) ->
     tidy_name (uniq_col_name [["index"; "distance"]; colnames ex_right] "2" n) =
       tidy_name n ++ "_b" /\
     tidy_name (uniq_col_name [["index"; "distance"]; colnames ex_left] "3" n) =
       tidy_name n ++ "_y").
Proof.
  apply (C7_collisions_kept isort ex_ix ex_left ex_right).
  - apply isort_sorts.
  - vm_compute. reflexivity.
Defined.

Lemma C8_witness :
  (forall n, n < 3 ->
     nth_error
       [OIndex [(0%nat, 1 # 7200)]; OTable (mkTable ["mag"] [[VNum 10]]);
        OTable (mkTable ["mag"] [[VNum 20]]);
        OTable (mkTable ["mag"] [[VNum 20]]);
        OMatched ["index"; "distance"; "mag_2"; "mag_3"] [mkMrow 0 (1 # 7200) [VNum 10] [VNum 20]];
        OTable (mkTable ["mag_2"; "mag_3"] [[VNum 10; VNum 20]])] n =
     nth_error
       [OIndex [(0%nat, 1 # 7200)]; OTable (mkTable ["mag"] [[VNum 10]]);
        OTable (mkTable ["mag"] [[VNum 20]])] n) /\
  3 <= 5.
Proof.
  destruct (C8_pure isort three_arcsec 0 1 2
     [OIndex [(0%nat, 1 # 7200)]; OTable (mkTable ["mag"] [[VNum 10]]);
      OTable (mkTable ["mag"] [[VNum 20]])] 5
     [OIndex [(0%nat, 1 # 7200)]; OTable (mkTable ["mag"] [[VNum 10]]);
      OTable (mkTable ["mag"] [[VNum 20]]);
      OTable (mkTable ["mag"] [[VNum 20]]);
      OMatched ["index"; "distance"; "mag_2"; "mag_3"] [mkMrow 0 (1 # 7200) [VNum 10] [VNum 20]];
      OTable (mkTable ["mag_2"; "mag_3"] [[VNum 10; VNum 20]])])
    as [H1 [H2 _]].
  - vm_compute. reflexivity.
  - split; [exact H1 | exact H2].
Defined.

Lemma C9_witness :
  exists sel,
    rows (mkTable ["id"; "mag_2"; "mag_3"]
            [[VInt 1; VNum 10; VNum 20]; [VInt 3; VNum 12; VNum 21]]) =
      map (fun r => app (m_left r) (m_right r)) sel /\
    Forall (fun r => nth_error (rows ex_right) (m_index r) = Some (m_right r)) sel /\
    Sorted lt (map m_index sel).
Proof.
  apply (C9_ascending_right_index isort (1 # 10) ex_ix ex_left ex_right).
  - apply isort_sorts.
  - vm_compute. reflexivity.
Defined.

Lemma C10_witness :
  In (mkMrow 1 (1 # 50) [VInt 3; VNum 12] [VNum 21]) (hstack_rows ex_ix10 (rows ex_left) ex_rr10) /\
  Forall (fun c => m_index c <> 1%nat) [ex_a].
Proof.
  split; [vm_compute; right; right; left; reflexivity|].
  apply Forall_forall.
  apply (C10_no_promotion isort three_arcsec ex_ix10 ex_left ex_right ex_rr10 ex_names [ex_a]
           (mkMrow 1 (1 # 100) [VInt 2; VNum 11] [VNum 21]) 1).
  - apply isort_sorts.
  - vm_compute. reflexivity.
  - vm_compute. reflexivity.
  - vm_compute. right. left. reflexivity.
  - reflexivity.
  - intros c Hc Hi. vm_compute in Hc.
    destruct Hc as [<- | [<- | [<- | []]]]; try discriminate Hi.
    + apply Qle_refl.
    + vm_compute. discriminate.
  - vm_compute. discriminate.
Defined.

(** * Further properties of the notebook's cells *)

Lemma col_pos_None n l : col_pos n l = None <-> mem n l = false.
Proof.
  induction l as [|x l IH]; simpl; [tauto|].
  destruct (String.eqb n x); simpl; [split; discriminate|].
  rewrite <- IH. destruct (col_pos n l); simpl; split; congruence.
Qed.

Lemma filter_combine_map {A} (f : A -> bool) l :
  map fst (filter snd (combine l (map f l))) = filter f l.
Proof.
  induction l as [|x l IH]; simpl; [reflexivity|].
  destruct (f x); simpl; rewrite IH; reflexivity.
Qed.


Lemma eq_str_cells i s rs :
  eq_str (map (fun r => nth i r (VInt 0)) rs) s = map (cell_is i s) rs.
Proof.
  unfold eq_str. rewrite map_map. apply map_ext. intros r. unfold cell_is.
  destruct (nth_error r i) eqn:E.
  - rewrite (nth_error_nth r i (VInt 0) E). reflexivity.
  - rewrite nth_overflow by (apply nth_error_None; exact E). reflexivity.
Qed.

Lemma select_eq_Some t name s i :
  col_pos name (colnames t) = Some i ->
  select_eq t name s = Ok (mkTable (colnames t) (filter (cell_is i s) (rows t))).
Proof.
  intros H. unfold select_eq, get_column. rewrite H. cbn [bind].
  rewrite eq_str_cells. unfold bool_index. rewrite length_map, Nat.eqb_refl.
  cbn [bind]. rewrite filter_combine_map. reflexivity.
Qed.

(** [t[t[name] == s]] raises [KeyError] exactly for a missing column;
    otherwise it keeps the rows holding the string [s] in that column. *)
Theorem select_eq_spec t name s :
  (select_eq t name s = Err KeyError <-> mem name (colnames t) = false) /\
  (forall i, col_pos name (colnames t) = Some i ->
     select_eq t name s =
       Ok (mkTable (colnames t)
             (filter (fun r => match nth_error r i with
                               | Some (VStr x) => String.eqb x s
                               | _ => false end) (rows t)))).
Proof.
  split.
  - rewrite <- col_pos_None. destruct (col_pos name (colnames t)) as [i|] eqn:E.
    + rewrite (select_eq_Some _ _ _ _ E). split; discriminate.
    + unfold select_eq, get_column. rewrite E. split; reflexivity.
  - intros i H. rewrite (select_eq_Some _ _ _ _ H). reflexivity.
Qed.

Lemma filter_disjoint_length {A} (f g : A -> bool) l :
  (forall x, f x = true -> g x = true -> False) ->
  List.length (filter f l) + List.length (filter g l) <= List.length l.
Proof.
  intros H. induction l as [|x l IH]; simpl; [lia|].
  destruct (f x) eqn:E1, (g x) eqn:E2; simpl.
  - exfalso. exact (H x E1 E2).
  - lia.
  - lia.
  - lia.
Qed.

Lemma length_filter_le {A} (f : A -> bool) l : List.length (filter f l) <= List.length l.
Proof. induction l as [|x l IH]; simpl; [lia|]. destruct (f x); simpl; lia. Qed.

Lemma cell_is_excl i s1 s2 r : s1 <> s2 -> cell_is i s1 r = true -> cell_is i s2 r = true -> False.
Proof.
  unfold cell_is. destruct (nth_error r i) as [[| | |x]|]; try discriminate.
  intros Hne H1 H2. apply String.eqb_eq in H1, H2. congruence.
Qed.

(** The two band catalogs keep the columns, share no row and together
    hold at most as many rows as the catalog read. *)
Theorem select_bands_split read_catalog b_catalog y_catalog :
  select_bands read_catalog = Ok (b_catalog, y_catalog) ->
  colnames b_catalog = colnames read_catalog /\
  colnames y_catalog = colnames read_catalog /\
  (forall r, In r (rows b_catalog) -> ~ In r (rows y_catalog)) /\
  List.length (rows b_catalog) + List.length (rows y_catalog) <= List.length (rows read_catalog).
Proof.
  unfold select_bands. intros H.
  destruct (col_pos "valid" (colnames read_catalog)) as [iv|] eqn:Ev;
    [rewrite (select_eq_Some _ _ _ _ Ev) in H
    |unfold select_eq, get_column in H; rewrite Ev in H; discriminate].
  cbn [bind] in H.
  destruct (col_pos "Filename" (colnames read_catalog)) as [ifn|] eqn:Ef;
    [|unfold select_eq, get_column in H; simpl in H; rewrite Ef in H; discriminate].
  rewrite (select_eq_Some (mkTable _ _) _ _ ifn Ef) in H. cbn [bind] in H.
  rewrite (select_eq_Some (mkTable _ _) _ _ ifn Ef) in H. cbn [bind] in H.
  injection H as <- <-. cbn [colnames rows].
  split; [reflexivity|]. split; [reflexivity|]. split.
  - intros r H1 H2. apply filter_In in H1 as [_ H1]. apply filter_In in H2 as [_ H2].
    refine (cell_is_excl ifn b_image y_image r _ H1 H2). discriminate.
  - eapply Nat.le_trans.
    + apply filter_disjoint_length. intros r H1 H2.
      refine (cell_is_excl ifn b_image y_image r _ H1 H2). discriminate.
    + apply length_filter_le.
Qed.

Lemma argmin_from_ok {C} (d : C -> Q) rs : forall pre best,
  (exists r, nth_error pre (fst best) = Some r /\ snd best = d r /\
             Forall (fun r' => Qle (snd best) (d r')) pre) ->
  let b := argmin_from C d rs (List.length pre) best in
  exists r, nth_error (app pre rs) (fst b) = Some r /\ snd b = d r /\
            Forall (fun r' => Qle (snd b) (d r')) (app pre rs).
Proof.
  induction rs as [|r rs IH]; intros pre best Hb; simpl.
  - rewrite app_nil_r. exact Hb.
  - replace (app pre (r :: rs)) with (app (app pre [r]) rs) by (rewrite <- app_assoc; reflexivity).
    replace (S (List.length pre)) with (List.length (app pre [r]))
      by (rewrite length_app; simpl; lia).
    apply IH. destruct Hb as [r0 [Hn [Hd Hf]]].
    destruct (Qltb (d r) (snd best)) eqn:E; simpl.
    + apply Qltb_iff in E. exists r. split; [|split; [reflexivity|]].
      * rewrite nth_error_app2 by lia. rewrite Nat.sub_diag. reflexivity.
      * apply Forall_app. split.
        -- eapply Forall_impl; [|exact Hf]. intros a Ha. apply Qlt_le_weak.
           eapply Qlt_le_trans; [exact E | exact Ha].
        -- constructor; [apply Qle_refl | constructor].
    + exists r0. split; [|split; [exact Hd|]].
      * rewrite nth_error_app1; [exact Hn|]. apply nth_error_Some. congruence.
      * apply Forall_app. split; [exact Hf|]. constructor; [|constructor].
        apply Qnot_lt_le. intros Hl. apply Qltb_iff in Hl. congruence.
Qed.

Lemma match_to_catalog_sky_ok {C} (sep : C -> C -> Q) lpos rpos :
  rpos <> [] ->
  exists ix, match_to_catalog_sky C sep lpos rpos = Ok ix /\ nearest_table C sep lpos rpos ix.
Proof.
  destruct rpos as [|r0 rs]; [congruence|]. intros _.
  eexists. split; [reflexivity|]. unfold nearest_table.
  induction lpos as [|l lpos IH]; simpl; constructor; [|exact IH].
  apply (argmin_from_ok (sep l) rs [r0] (0, sep l r0)).
  exists r0. split; [reflexivity|]. split; [reflexivity|].
  constructor; [apply Qle_refl | constructor].
Qed.

Lemma nearest_in_range {C} (sep : C -> C -> Q) lpos rpos ix :
  nearest_table C sep lpos rpos ix -> Forall (fun p => fst p < List.length rpos) ix.
Proof.
  unfold nearest_table. induction 1 as [|l p lpos ix [r [Hr _]] _ IH]; constructor; [|exact IH].
  apply nth_error_Some. congruence.
Qed.

Lemma take_rows_in_range rs ix :
  Forall (fun i => i < List.length rs) ix -> exists rr, take_rows rs ix = Ok rr.
Proof.
  induction 1 as [|i ix Hi _ [rr IH]]; simpl; [eexists; reflexivity|].
  destruct (nth_error rs i) eqn:E; [|apply nth_error_None in E; lia].
  rewrite IH. eexists. reflexivity.
Qed.

Lemma hstack_lengths_same n : hstack_lengths [n; n; n] = Ok tt.
Proof.
  unfold hstack_lengths. cbn [fold_right forallb].
  rewrite Nat.max_0_r, !Nat.max_id, Nat.eqb_refl. reflexivity.
Qed.

Lemma join_errors srt cut ix left right rr e :
  take_rows (rows right) (map fst ix) = Ok rr ->
  List.length ix = List.length (rows left) ->
  join_catalogs_upto srt cut ix left right = Err e ->
  (e = TableMergeError /\
   has_dup (hstack_names3 ["index"; "distance"] (colnames left) (colnames right)) = true) \/
  (e = ValueError /\
   has_dup (hstack_names3 ["index"; "distance"] (colnames left) (colnames right)) = false /\
   (mem "index" (hstack_names3 ["index"; "distance"] (colnames left) (colnames right)) &&
    mem "distance" (hstack_names3 ["index"; "distance"] (colnames left) (colnames right)))
   = false).
Proof.
  intros Ht Hl. rewrite join_catalogs_upto_eq. unfold join_sorted, join_matched.
  rewrite Ht. cbn [bind].
  destruct (has_dup _) eqn:D; cbn [bind]; [intros H; injection H as <-; auto|].
  rewrite (take_rows_length _ _ _ Ht), length_map, <- Hl, hstack_lengths_same. cbn [bind].
  destruct (_ && _) eqn:K; cbn [bind]; [discriminate|].
  intros H; injection H as <-. right. auto.
Qed.

(** On an index table meeting the [match_to_catalog_sky] contract for
    the positions of the left and the right catalog, [join_catalogs]
    raises no [IndexError]: it fails only on the column names, with
    [TableMergeError] when hstack would duplicate one, or [ValueError]
    when the sort keys ['index'] and ['distance'] did not survive the
    stacking. *)
Theorem nearest_join_errors srt cut (coordT : Type) (sep : coordT -> coordT -> Q)
    lpos rpos ix left right e :
  nearest_table coordT sep lpos rpos ix ->
  List.length lpos = List.length (rows left) ->
  List.length rpos = List.length (rows right) ->
  join_catalogs_upto srt cut ix left right = Err e ->
  (e = TableMergeError /\
   has_dup (hstack_names3 ["index"; "distance"] (colnames left) (colnames right)) = true) \/
  (e = ValueError /\
   has_dup (hstack_names3 ["index"; "distance"] (colnames left) (colnames right)) = false /\
   (mem "index" (hstack_names3 ["index"; "distance"] (colnames left) (colnames right)) &&
    mem "distance" (hstack_names3 ["index"; "distance"] (colnames left) (colnames right)))
   = false).
Proof.
  intros Hn Hl Hr.
  assert (Hix : List.length ix = List.length (rows left))
    by (rewrite <- Hl; symmetry; exact (Forall2_length Hn)).
  apply nearest_in_range in Hn.
  destruct (take_rows_in_range (rows right) (map fst ix)) as [rr Ht].
  - apply Forall_map. eapply Forall_impl; [|exact Hn]. simpl. intros p Hp. lia.
  - apply (join_errors srt cut ix left right rr e Ht Hix).
Qed.

Lemma length_firsts o l : List.length (firsts o l) <= List.length l.
Proof.
  revert o. induction l as [|r l IH]; intros o; simpl; [lia|].
  destruct (prev_is o (m_index r)); simpl; specialize (IH (Some (m_index r))); lia.
Qed.

Lemma length_hstack_rows ix ls rs : List.length (hstack_rows ix ls rs) <= List.length ix.
Proof.
  revert ls rs. induction ix as [|[i d] ix IH]; intros ls rs; simpl; [lia|].
  destruct ls, rs; simpl; try lia. specialize (IH ls rs). lia.
Qed.

Lemma length_filter_le' {A} (f : A -> bool) l : List.length (filter f l) <= List.length l.
Proof. induction l as [|x l IH]; simpl; [lia|]. destruct (f x); simpl; lia. Qed.

(** The join has at most one row per right record and per index row. *)
Theorem join_row_count srt cut ix left right T :
  sorts_by_key srt ->
  join_catalogs_upto srt cut ix left right = Ok T ->
  List.length (rows T) <= List.length (rows right) /\
  List.length (rows T) <= List.length ix.
Proof.
  intros Hs HT.
  destruct (join_upto_ok _ _ _ _ _ _ HT) as [names [sel [Hm [Hr _]]]].
  destruct (selected_facts _ _ _ _ _ _ _ Hs Hm) as [Hf Hss].
  rewrite Hr, length_map. split.
  - rewrite <- (length_map m_index sel), <- (length_seq (List.length (rows right)) 0).
    apply NoDup_incl_length.
    + apply StronglySorted_lt_NoDup, StronglySorted_map_index, Hss.
    + intros i Hi. apply in_map_iff in Hi as [r [<- Hr']].
      rewrite Forall_forall in Hf. specialize (Hf r Hr').
      apply in_seq. assert (m_index r < List.length (rows right)); [|lia].
      apply nth_error_Some. congruence.
  - destruct (join_masked_ok _ _ _ _ _ _ _ Hm) as [ms [Hso ->]].
    destruct (join_sorted_ok _ _ _ _ _ _ Hso) as [rr [_ [_ [_ [_ [_ ->]]]]]].
    destruct (Hs (hstack_rows ix (rows left) rr)) as [Hp _].
    eapply Nat.le_trans; [apply length_filter_le'|].
    eapply Nat.le_trans; [apply length_firsts|].
    rewrite <- (Permutation_length Hp). apply length_hstack_rows.
Qed.

Lemma replace_us_nopat c nw s : has_pat c s = false -> replace_us c nw s = s.
Proof.
  induction s as [|x s IH]; [reflexivity|].
  destruct s as [|y r]; [reflexivity|].
  intros H. cbn [has_pat] in H. apply orb_false_iff in H as [H1 H2].
  rewrite replace_us_cons2, H1. rewrite (IH H2). reflexivity.
Qed.

(** The first character of [replace_us c nw (String y r)] is [y] or ['_']. *)
Lemma replace_us_head c nw y r :
  exists r', replace_us c nw (String y r) = String y r' \/
             replace_us c nw (String y r) = String "_"%char r'.
Proof.
  destruct r as [|z r].
  - exists EmptyString. left. reflexivity.
  - rewrite replace_us_cons2. destruct (Ascii.eqb y "_" && Ascii.eqb z c).
    + eexists. right. reflexivity.
    + eexists. left. reflexivity.
Qed.

Lemma has_pat_cons c x t :
  has_pat c (String x t) =
  match t with String y _ => (Ascii.eqb x "_"%char && Ascii.eqb y c) || has_pat c t
             | EmptyString => false end.
Proof. reflexivity. Qed.

Lemma replace_us_kills c nw d s :
  Ascii.eqb c "_"%char = false -> Ascii.eqb d "_"%char = false ->
  Ascii.eqb nw "_"%char = false -> Ascii.eqb nw d = false ->
  (d = c \/ has_pat d s = false) ->
  has_pat d (replace_us c nw s) = false.
Proof.
  intros Hc Hd Hn Hnd.
  assert (G : forall n s, String.length s <= n -> (d = c \/ has_pat d s = false) ->
                has_pat d (replace_us c nw s) = false).
  2: { intros H. exact (G (String.length s) s (le_n _) H). }
  induction n as [|n IH]; intros s0 Hl Hp.
  - destruct s0; [reflexivity | simpl in Hl; lia].
  - destruct s0 as [|x s1]; [reflexivity|].
    destruct s1 as [|y r]; [reflexivity|].
    rewrite replace_us_cons2. simpl in Hl.
    destruct (Ascii.eqb x "_" && Ascii.eqb y c) eqn:E.
    + rewrite has_pat_cons, has_pat_cons. rewrite Hnd, andb_false_r. cbn [orb].
      assert (Hr : has_pat d (replace_us c nw r) = false).
      { apply IH; [lia|]. destruct Hp as [Hp|Hp]; [left; exact Hp|right].
        rewrite has_pat_cons in Hp. destruct r as [|z r'] ; [reflexivity|].
        apply orb_false_iff in Hp as [_ Hp]. rewrite has_pat_cons in Hp.
        apply orb_false_iff in Hp as [_ Hp]. exact Hp. }
      destruct (replace_us c nw r) as [|z r'] eqn:Er; [reflexivity|].
      rewrite Hn. exact Hr.
    + assert (Hs1 : has_pat d (replace_us c nw (String y r)) = false).
      { apply IH; [simpl; lia|]. destruct Hp as [Hp|Hp]; [left; exact Hp|right].
        rewrite has_pat_cons in Hp. apply orb_false_iff in Hp as [_ Hp]. exact Hp. }
      rewrite has_pat_cons.
      destruct (replace_us_head c nw y r) as [r' [Er | Er]]; rewrite Er in *;
        rewrite Hs1, orb_false_r.
      * destruct Hp as [-> | Hp]; [exact E|].
        rewrite has_pat_cons in Hp. apply orb_false_iff in Hp as [Hp _]. exact Hp.
      * rewrite (Ascii.eqb_sym "_"%char d), Hd, !andb_false_r. reflexivity.
Qed.

Lemma tidy_name_clean s :
  has_pat "2"%char (tidy_name s) = false /\ has_pat "3"%char (tidy_name s) = false.
Proof.
  unfold tidy_name. split.
  - apply replace_us_kills; try reflexivity. right.
    apply replace_us_kills; try reflexivity. left; reflexivity.
  - apply replace_us_kills; try reflexivity. left; reflexivity.
Qed.

Lemma tidy_idem s : tidy_name (tidy_name s) = tidy_name s.
Proof.
  destruct (tidy_name_clean s) as [H2 H3]. unfold tidy_name at 1.
  rewrite (replace_us_nopat _ _ _ H2). apply replace_us_nopat, H3.
Qed.

(** The column tidy-up is idempotent and leaves names without ['_2'] or
    ['_3'] alone. *)
Theorem tidy_name_idem s :
  tidy_name (tidy_name s) = tidy_name s /\
  (has_pat "2"%char s = false -> has_pat "3"%char s = false -> tidy_name s = s).
Proof.
  split; [apply tidy_idem|].
  intros H2 H3. unfold tidy_name. rewrite (replace_us_nopat _ _ _ H2).
  apply replace_us_nopat, H3.
Qed.



Lemma rename_all_gen todo : forall done,
  NoDup (app (map tidy_name done) todo) ->
  (NoDup (map tidy_name (app done todo)) ->
     rename_all todo (app (map tidy_name done) todo) = Ok (map tidy_name (app done todo))) /\
  (~ NoDup (map tidy_name (app done todo)) ->
     rename_all todo (app (map tidy_name done) todo) = Err KeyError).
Proof.
  induction todo as [|c todo IH]; intros done HS; simpl.
  - rewrite !app_nil_r. rewrite app_nil_r in HS. split; [reflexivity | tauto].
  - unfold rename_column.
    assert (Hc : mem c (app (map tidy_name done) (c :: todo)) = true).
    { apply mem_In. apply in_or_app. right. left. reflexivity. }
    rewrite Hc. cbn [negb].
    assert (Hcd : ~ In c (map tidy_name done)).
    { intros H. apply NoDup_remove_2 in HS. apply HS. apply in_or_app. left. exact H. }
    assert (Hct : ~ In c todo).
    { intros H. apply NoDup_remove_2 in HS. apply HS. apply in_or_app. right. exact H. }
    replace (app done (c :: todo)) with (app (app done [c]) todo)
      by (rewrite <- app_assoc; reflexivity).
    destruct (String.eqb c (tidy_name c)) eqn:E.
    + apply String.eqb_eq in E. cbn [bind].
      replace (app (map tidy_name done) (c :: todo))
        with (app (map tidy_name (app done [c])) todo)
        by (rewrite map_app, <- app_assoc; simpl; rewrite <- E; reflexivity).
      apply IH. rewrite map_app, <- app_assoc. simpl. rewrite <- E. exact HS.
    + apply String.eqb_neq in E.
      destruct (mem (tidy_name c) (app (map tidy_name done) (c :: todo))) eqn:M.
      * cbn [bind]. split; [|reflexivity]. intros Hnd. exfalso.
        rewrite map_app, map_app, <- app_assoc in Hnd. simpl in Hnd.
        apply NoDup_remove_2 in Hnd. apply Hnd.
        apply mem_In in M. apply in_app_or in M as [M | [M | M]].
        -- apply in_or_app. left. exact M.
        -- congruence.
        -- apply in_or_app. right. rewrite <- tidy_idem.
           apply in_map. exact M.
      * cbn [bind].
        assert (Hm : map (fun n => if String.eqb n c then tidy_name c else n)
                       (app (map tidy_name done) (c :: todo)) =
                     app (map tidy_name (app done [c])) todo).
        { rewrite map_app, map_replace_id by exact Hcd. simpl.
          rewrite String.eqb_refl, map_replace_id by exact Hct.
          rewrite map_app, <- app_assoc. reflexivity. }
        rewrite Hm. apply IH. rewrite map_app, <- app_assoc. simpl.
        apply (proj2 (NoDup_Add (Add_app (tidy_name c) (map tidy_name done) todo))).
        split; [exact (NoDup_remove_1 _ _ _ HS)|].
        intros Hin. apply Bool.not_true_iff_false in M. apply M. apply mem_In.
        apply in_app_or in Hin as [Hin|Hin]; apply in_or_app; [left|right; right]; exact Hin.
Qed.

(** The rename loop succeeds exactly when the tidied names are distinct. *)
Theorem tidy_loop_spec names :
  NoDup names ->
  (NoDup (map tidy_name names) -> rename_all names names = Ok (map tidy_name names)) /\
  (~ NoDup (map tidy_name names) -> rename_all names names = Err KeyError).
Proof.
  intros H. exact (rename_all_gen names [] H).
Qed.

Lemma get_column_length t name col :
  get_column t name = Ok col -> List.length col = List.length (rows t).
Proof.
  unfold get_column. destruct (col_pos name (colnames t)); [|discriminate].
  intros H. injection H as <-. apply length_map.
Qed.

Lemma get_column_present t name :
  mem name (colnames t) = true -> exists col, get_column t name = Ok col.
Proof.
  intros H. unfold get_column. destruct (col_pos name (colnames t)) eqn:E.
  - eexists. reflexivity.
  - apply col_pos_None in E. congruence.
Qed.

Lemma np_sub_number a b : is_number a -> is_number b -> exists v, np_sub a b = Ok v.
Proof. destruct a, b; simpl; try tauto; intros _ _; eexists; reflexivity. Qed.

Lemma sub_columns_ok a b :
  List.length a = List.length b -> Forall is_number a -> Forall is_number b ->
  exists d, sub_columns a b = Ok d /\ List.length d = List.length a /\
    forall i va vb, nth_error a i = Some va -> nth_error b i = Some vb ->
      exists v, np_sub va vb = Ok v /\ nth_error d i = Some v.
Proof.
  revert b. induction a as [|x a IH]; intros [|y b] Hl Ha Hb; simpl in Hl; try lia.
  - exists []. split; [reflexivity|]. split; [reflexivity|].
    intros [|i]; discriminate.
  - inversion Ha; subst. inversion Hb; subst.
    destruct (np_sub_number x y) as [v Hv]; [assumption|assumption|].
    destruct (IH b) as [d [Hd [Hld Hn]]]; [lia|assumption|assumption|].
    exists (v :: d). simpl. rewrite Hv, Hd. simpl.
    split; [reflexivity|]. split; [lia|].
    intros [|i] va vb Ha' Hb'; simpl in Ha', Hb'.
    + injection Ha' as <-. injection Hb' as <-. exists v. split; [exact Hv|reflexivity].
    + exact (Hn i va vb Ha' Hb').
Qed.

Lemma sub_columns_err a b e :
  sub_columns a b = Err e -> e = TypeError \/ e = ValueError.
Proof.
  revert b. induction a as [|x a IH]; intros [|y b]; simpl; try (intros H; injection H as <-; auto).
  - discriminate.
  - destruct (np_sub x y) as [v|e'] eqn:E; simpl.
    + destruct (sub_columns a b) eqn:Es; simpl; [discriminate|].
      intros H; injection H as <-. apply (IH b Es).
    + intros H; injection H as <-.
      destruct x, y; simpl in E; try discriminate; injection E as <-; auto.
Qed.

Lemma sub_columns_string a b s :
  List.length a = List.length b -> In (VStr s) a \/ In (VStr s) b ->
  sub_columns a b = Err TypeError.
Proof.
  revert b. induction a as [|x a IH]; intros [|y b] Hl Hin; simpl in Hl; try lia.
  - destruct Hin as [[]|[]].
  - simpl. destruct Hin as [[-> | Ha] | [-> | Hb]].
    + destruct y; reflexivity.
    + destruct (np_sub x y) as [v|e] eqn:E; simpl.
      * rewrite (IH b) by (auto; lia). reflexivity.
      * destruct x, y; simpl in E; try discriminate; injection E as <-; reflexivity.
    + destruct x; reflexivity.
    + destruct (np_sub x y) as [v|e] eqn:E; simpl.
      * rewrite (IH b) by (auto; lia). reflexivity.
      * destruct x, y; simpl in E; try discriminate; injection E as <-; reflexivity.
Qed.

Lemma nth_error_zipWith {A B C} (f : A -> B -> C) a b i :
  nth_error (zipWith f a b) i =
  match nth_error a i, nth_error b i with Some x, Some y => Some (f x y) | _, _ => None end.
Proof.
  revert b i. induction a as [|x a IH]; intros [|y b] [|i]; simpl; try reflexivity.
  - destruct (nth_error a i); reflexivity.
  - apply IH.
Qed.

Lemma length_zipWith_eq {A B C} (f : A -> B -> C) a b :
  List.length a = List.length b -> List.length (zipWith f a b) = List.length a.
Proof. intros H. rewrite zipWith_length. lia. Qed.

(** Errors and result of the colour column assignment: [KeyError] for a
    missing magnitude column, [TypeError] for a string column, and
    otherwise (a table with rows, whose cells fix the columns' numeric
    dtypes) a new last column holding, row by row, numpy's difference of
    the two magnitudes: int64 wrap-around, or the float64 rounding of the
    difference of the operands taken as float64. *)
Theorem add_color_spec t :
  ((mem "mag_b" (colnames t) = false \/ mem "mag_y" (colnames t) = false) ->
     add_color t = Err KeyError) /\
  (forall bcol ycol,
     get_column t "mag_b" = Ok bcol -> get_column t "mag_y" = Ok ycol ->
     (forall s, In (VStr s) bcol \/ In (VStr s) ycol -> add_color t = Err TypeError) /\
     (rows t <> [] -> Forall is_number bcol -> Forall is_number ycol ->
      mem "mag_b-y" (colnames t) = false ->
      exists T, add_color t = Ok T /\
        colnames T = app (colnames t) ["mag_b-y"] /\
        List.length (rows T) = List.length (rows t) /\
        forall i r vb vy, nth_error (rows t) i = Some r ->
          nth_error bcol i = Some vb -> nth_error ycol i = Some vy ->
          exists v, np_sub vb vy = Ok v /\ nth_error (rows T) i = Some (app r [v]))).
Proof.
  split.
  - intros [H|H]; unfold add_color, get_column.
    + apply col_pos_None in H. rewrite H. reflexivity.
    + destruct (col_pos "mag_b" (colnames t)); [|reflexivity]. cbn [bind].
      apply col_pos_None in H. rewrite H. reflexivity.
  - intros bcol ycol Hb Hy.
    pose proof (get_column_length _ _ _ Hb) as Lb.
    pose proof (get_column_length _ _ _ Hy) as Ly.
    split.
    + intros s Hs. unfold add_color. rewrite Hb, Hy. cbn [bind].
      rewrite (sub_columns_string bcol ycol s) by (auto; lia). reflexivity.
    + intros _ Nb Ny Hm.
      destruct (sub_columns_ok bcol ycol) as [d [Hd [Hld Hn]]]; [lia|assumption|assumption|].
      exists (mkTable (app (colnames t) ["mag_b-y"]) (zipWith (fun r v => app r [v]) (rows t) d)).
      split.
      * unfold add_color. rewrite Hb, Hy. cbn [bind]. rewrite Hd. cbn [bind].
        unfold set_column. rewrite Hld, Lb, Nat.eqb_refl. cbn [negb].
        apply col_pos_None in Hm. rewrite Hm. reflexivity.
      * split; [reflexivity|]. cbn [rows]. split; [apply length_zipWith_eq; lia|].
        intros i r vb vy Hr Hvb Hvy.
        destruct (Hn i vb vy Hvb Hvy) as [v [Hv Hdi]].
        exists v. split; [exact Hv|]. rewrite nth_error_zipWith, Hr, Hdi. reflexivity.
Qed.

Lemma join_and_tidy_names srt ix left right T :
  join_and_tidy srt ix left right = Ok T ->
  colnames T =
    map tidy_name
      (app (map (uniq_col_name [["index"; "distance"]; colnames right] "2") (colnames left))
           (map (uniq_col_name [["index"; "distance"]; colnames left] "3") (colnames right))).
Proof.
  intros HT. unfold join_and_tidy in HT.
  destruct (join_catalogs srt ix left right) as [T0|e] eqn:HJ; simpl in HT; [|discriminate].
  destruct (rename_all (colnames T0) (colnames T0)) as [names|e] eqn:HR; simpl in HT;
    [|discriminate].
  injection HT as <-. simpl.
  destruct (join_catalogs_names _ _ _ _ _ _ HJ) as [Hc Hnd].
  destruct (rename_all_ok (colnames T0) [] names Hnd HR) as [Hn _].
  rewrite Hn, <- Hc. reflexivity.
Qed.

(** After the join and the renaming of two catalogs with a ['mag']
    column, the colour column finds ['mag_b'] and ['mag_y']. *)
Theorem tidy_then_color srt ix left right T :
  join_and_tidy srt ix left right = Ok T ->
  In "mag" (colnames left) -> In "mag" (colnames right) ->
  add_color T <> Err KeyError.
Proof.
  intros HT HL HR. apply join_and_tidy_names in HT.
  assert (E2 : uniq_col_name [["index"; "distance"]; colnames right] "2" "mag" = "mag_2").
  { unfold uniq_col_name.
    replace (existsb (mem "mag") [["index"; "distance"]; colnames right]) with true; [reflexivity|].
    symmetry. apply existsb_exists. exists (colnames right).
    split; [right; left; reflexivity | apply mem_In, HR]. }
  assert (E3 : uniq_col_name [["index"; "distance"]; colnames left] "3" "mag" = "mag_3").
  { unfold uniq_col_name.
    replace (existsb (mem "mag") [["index"; "distance"]; colnames left]) with true; [reflexivity|].
    symmetry. apply existsb_exists. exists (colnames left).
    split; [right; left; reflexivity | apply mem_In, HL]. }
  assert (Mb : mem "mag_b" (colnames T) = true).
  { apply mem_In. rewrite HT. change "mag_b" with (tidy_name "mag_2"). apply in_map.
    apply in_or_app. left. rewrite <- E2. apply in_map, HL. }
  assert (My : mem "mag_y" (colnames T) = true).
  { apply mem_In. rewrite HT. change "mag_y" with (tidy_name "mag_3"). apply in_map.
    apply in_or_app. right. rewrite <- E3. apply in_map, HR. }
  destruct (get_column_present _ _ Mb) as [bcol Hb].
  destruct (get_column_present _ _ My) as [ycol Hy].
  unfold add_color. rewrite Hb, Hy. cbn [bind].
  destruct (sub_columns bcol ycol) as [d|e] eqn:Hs; cbn [bind].
  2: { destruct (sub_columns_err _ _ _ Hs) as [-> | ->]; discriminate. }
  unfold set_column. destruct (negb _); [discriminate|].
  destruct (col_pos _ _); discriminate.
Qed.


(** ** Witnesses of the further properties *)

Lemma select_bands_split_witness :
  select_bands ex_read_catalog =
    Ok (mkTable ["Filename"; "valid"; "mag"] [[VStr b_image; VStr "True"; VNum 10]],
        mkTable ["Filename"; "valid"; "mag"] [[VStr y_image; VStr "True"; VNum 11]]) /\
  1 + 1 <= 3.
Proof.
  assert (H : select_bands ex_read_catalog =
    Ok (mkTable ["Filename"; "valid"; "mag"] [[VStr b_image; VStr "True"; VNum 10]],
        mkTable ["Filename"; "valid"; "mag"] [[VStr y_image; VStr "True"; VNum 11]]))
    by (vm_compute; reflexivity).
  split; [exact H|].
  destruct (select_bands_split _ _ _ H) as [_ [_ [_ Hl]]]. exact Hl.
Defined.

Lemma nearest_join_errors_witness :
  nearest_table Q ex_sep [0 # 1] [0 # 1; 1 # 1] [(0%nat, ex_sep (0 # 1) (0 # 1))] /\
  join_catalogs_upto isort three_arcsec [(0%nat, ex_sep (0 # 1) (0 # 1))]
    (mkTable ["index"] [[VInt 1]]) ex_right = Err ValueError /\
  ((ValueError = TableMergeError /\
    has_dup (hstack_names3 ["index"; "distance"] ["index"] ["mag"]) = true) \/
   (ValueError = ValueError /\
    has_dup (hstack_names3 ["index"; "distance"] ["index"] ["mag"]) = false /\
    (mem "index" (hstack_names3 ["index"; "distance"] ["index"] ["mag"]) &&
     mem "distance" (hstack_names3 ["index"; "distance"] ["index"] ["mag"])) = false)).
Proof.
  assert (Hn : nearest_table Q ex_sep [0 # 1] [0 # 1; 1 # 1] [(0%nat, ex_sep (0 # 1) (0 # 1))]).
  { destruct (match_to_catalog_sky_ok ex_sep [0 # 1] [0 # 1; 1 # 1]) as [ix [E H]];
      [discriminate|].
    vm_compute in E. injection E as <-. exact H. }
  assert (He : join_catalogs_upto isort three_arcsec [(0%nat, ex_sep (0 # 1) (0 # 1))]
                 (mkTable ["index"] [[VInt 1]]) ex_right = Err ValueError)
    by (vm_compute; reflexivity).
  split; [exact Hn|]. split; [exact He|].
  exact (nearest_join_errors isort three_arcsec Q ex_sep [0 # 1] [0 # 1; 1 # 1]
           [(0%nat, ex_sep (0 # 1) (0 # 1))] (mkTable ["index"] [[VInt 1]]) ex_right
           ValueError Hn eq_refl eq_refl He).
Defined.

Lemma join_row_count_witness :
  join_catalogs_upto isort three_arcsec ex_ix ex_left ex_right =
    Ok (mkTable ["id"; "mag_2"; "mag_3"] [[VInt 1; VNum 10; VNum 20]]) /\
  1 <= 2 /\ 1 <= 3.
Proof.
  assert (H : join_catalogs_upto isort three_arcsec ex_ix ex_left ex_right =
                Ok (mkTable ["id"; "mag_2"; "mag_3"] [[VInt 1; VNum 10; VNum 20]]))
    by (vm_compute; reflexivity).
  split; [exact H|].
  exact (join_row_count isort three_arcsec ex_ix ex_left ex_right _ isort_sorts H).
Defined.

Lemma tidy_loop_spec_witness :
  NoDup ["id"; "mag_2"; "mag_3"] /\
  rename_all ["id"; "mag_2"; "mag_3"] ["id"; "mag_2"; "mag_3"] = Ok ["id"; "mag_b"; "mag_y"] /\
  rename_all ["mag_2"; "mag_b"] ["mag_2"; "mag_b"] = Err KeyError.
Proof.
  assert (H1 : NoDup ["id"; "mag_2"; "mag_3"]) by (apply has_dup_NoDup; reflexivity).
  assert (H2 : NoDup ["mag_2"; "mag_b"]) by (apply has_dup_NoDup; reflexivity).
  split; [exact H1|]. split.
  - apply (proj1 (tidy_loop_spec _ H1)). apply has_dup_NoDup. vm_compute. reflexivity.
  - apply (proj2 (tidy_loop_spec _ H2)). intros H.
    change (NoDup ["mag_b"; "mag_b"]) in H.
    inversion H as [|? ? Hn _]. apply Hn. left. reflexivity.
Defined.

Lemma tidy_then_color_witness :
  add_color (mkTable ["id"; "mag_b"; "mag_y"] [[VInt 1; VNum 10; VNum 21]]) =
    Ok (mkTable ["id"; "mag_b"; "mag_y"; "mag_b-y"] [[VInt 1; VNum 10; VNum 21; VNum (10 - 21)]]) /\
  add_color (mkTable ["id"; "mag_b"; "mag_y"] [[VInt 1; VNum 10; VNum 21]]) <> Err KeyError.
Proof.
  split; [vm_compute; reflexivity|].
  apply (tidy_then_color isort [(1%nat, 1 # 7200)]
           (mkTable ["id"; "mag"] [[VInt 1; VNum 10]])
           (mkTable ["mag"] [[VNum 20]; [VNum 21]])).
  - vm_compute. reflexivity.
  - simpl. auto.
  - simpl. auto.
Defined.
